(** * Kokkos::Impl::concurrent_bitset, sequential embedding

    A shallow embedding of [struct concurrent_bitset]
    (core/src/SYCL/Kokkos_SYCL_WorkgroupReduction.hpp, second document of the
    file) and the properties of its operations.

    The buffer is the [uint32_t] array the C++ code receives as a raw pointer:
    word 0 is the packed header [state_header | used_count], the words after
    it are the bitmap.  Every atomic read-modify-write is one step of a
    sequential state-passing model: it returns the previous value of the cell
    together with the updated buffer.  A cell outside the array has no
    behaviour in C++; the model reports it as [OutOfBounds].  The [while (1)]
    loop of the two acquire functions is driven by a fuel counter and reports
    [OutOfFuel] when the counter is exhausted. *)

From Stdlib Require Import ZArith Lia List Bool.
From stdpp Require Import base option list.

#[local] Open Scope Z_scope.

(** ** 32-bit unsigned arithmetic *)

Definition u32_max : Z := 0xFFFFFFFF.

(** [uint32_t] values are the integers of [0, 2^32). *)
Definition is_u32 (z : Z) : Prop := 0 <= z <= u32_max.

(** Wrap-around of [uint32_t] addition and subtraction. *)
Definition wrap32 (z : Z) : Z := z mod 2 ^ 32.

(** [~x] on a [uint32_t]. *)
Definition not32 (z : Z) : Z := Z.lxor z u32_max.

(** Conversion [uint32_t -> int] (two's complement). *)
Definition int_of_u32 (z : Z) : Z := if z <? 2 ^ 31 then z else z - 2 ^ 32.

(** Modelled from the spec: [Kokkos::countr_one] lives in
    Kokkos_BitManipulation.hpp, which is not part of the sources; the spec
    calls it countTrailingOnes: the number of consecutive 1 bits of a 32-bit
    word, counted from the least significant bit. *)
Fixpoint countr_one_from (n : nat) (i : Z) (x : Z) : Z :=
  match n with
  | O => i
  | S n' => if Z.testbit x i then countr_one_from n' (i + 1) x else i
  end.

Definition countr_one (x : Z) : Z := countr_one_from 32 0 x.

(** ** Buffers and atomics *)

Abbreviation buffer := (list Z) (only parsing).

Inductive outcome (A : Type) : Type :=
  | Done (r : A) (buf : buffer)
  | OutOfBounds
  | OutOfFuel.

Arguments Done {A} r buf.
Arguments OutOfBounds {A}.
Arguments OutOfFuel {A}.

(** Modelled from the spec: the atomic primitives of Kokkos_Atomic.hpp are not
    part of the sources; the spec takes them as sequentially consistent
    fetch-and-modify operations.  Each returns the previous value of the cell
    and the buffer after the update, or [None] when the cell is outside the
    array. *)
Definition atomic_fetch_add (buf : buffer) (i : nat) (v : Z) : option (Z * buffer) :=
  match buf !! i with
  | Some old => Some (old, <[i := wrap32 (old + v)]> buf)
  | None => None
  end.

Definition atomic_fetch_sub (buf : buffer) (i : nat) (v : Z) : option (Z * buffer) :=
  match buf !! i with
  | Some old => Some (old, <[i := wrap32 (old - v)]> buf)
  | None => None
  end.

Definition atomic_fetch_or (buf : buffer) (i : nat) (v : Z) : option (Z * buffer) :=
  match buf !! i with
  | Some old => Some (old, <[i := Z.lor old v]> buf)
  | None => None
  end.

Definition atomic_fetch_and (buf : buffer) (i : nat) (v : Z) : option (Z * buffer) :=
  match buf !! i with
  | Some old => Some (old, <[i := Z.land old v]> buf)
  | None => None
  end.

(** ** The constants of [concurrent_bitset] *)

Definition bits_per_int_lg2 : Z := 5.
Definition bits_per_int_mask : Z := Z.shiftl 1 bits_per_int_lg2 - 1.
Definition max_bit_count_lg2 : Z := 25.
Definition max_bit_count : Z := Z.shiftl 1 max_bit_count_lg2.
Definition state_shift : Z := 26.
Definition state_used_mask : Z := Z.shiftl 1 state_shift - 1.
Definition state_header_mask : Z := Z.shiftl 0x1f state_shift.

(** ** Sizing helpers *)

Definition buffer_bound_lg2 (bit_bound_lg2 : Z) : Z :=
  if bit_bound_lg2 <=? max_bit_count_lg2
  then 1 + Z.shiftl 1 (if bits_per_int_lg2 <? bit_bound_lg2
                       then bit_bound_lg2 - bits_per_int_lg2 else 0)
  else 0.

Definition buffer_bound (bit_bound : Z) : Z :=
  if bit_bound <=? max_bit_count
  then 1 + Z.shiftr bit_bound bits_per_int_lg2 +
       (if Z.land bit_bound bits_per_int_mask =? 0 then 0 else 1)
  else 0.

(** ** acquire *)

(** [acquire_bounded_lg2], lines 348-413.  [claim_lg2] is its [while (1)]
    loop; [1 << bit_bound_lg2] is kept in a [uint32_t] and only used once
    [bit_bound_lg2 <= max_bit_count_lg2] is known. *)
Fixpoint claim_lg2 (fuel : nat) (buf : buffer)
    (word_count state_bit_used bit : Z) : outcome (Z * Z) :=
  match fuel with
  | O => OutOfFuel
  | S fuel' =>
    let word := Z.shiftr bit bits_per_int_lg2 in
    let mask := Z.shiftl 1 (Z.land bit bits_per_int_mask) in
    match atomic_fetch_or buf (Z.to_nat (word + 1)) mask with
    | None => OutOfBounds
    | Some (prev, buf') =>
      if Z.land prev mask =? 0
      then Done (int_of_u32 bit, int_of_u32 (state_bit_used + 1)) buf'
      else
        let j := if prev =? u32_max then -1 else countr_one prev in
        let bit' :=
          if 0 <=? j
          then Z.lor (Z.shiftl word bits_per_int_lg2) j
          else Z.lor (if word + 1 <? word_count
                      then Z.shiftl (word + 1) bits_per_int_lg2 else 0)
                     (Z.land bit bits_per_int_mask) in
        claim_lg2 fuel' buf' word_count state_bit_used bit'
    end
  end.

Definition acquire_bounded_lg2 (fuel : nat) (buf : buffer)
    (bit_bound_lg2 bit state_header : Z) : outcome (Z * Z) :=
  let bit_bound := wrap32 (Z.shiftl 1 bit_bound_lg2) in
  let word_count := Z.shiftr bit_bound bits_per_int_lg2 in
  if (max_bit_count_lg2 <? bit_bound_lg2)
     || negb (Z.land state_header (not32 state_header_mask) =? 0)
     || (bit_bound <? bit)
  then Done (-3, -3) buf
  else
    match atomic_fetch_add buf 0 1 with
    | None => OutOfBounds
    | Some (state, buf1) =>
      let state_error := negb (state_header =? Z.land state state_header_mask) in
      let state_bit_used := Z.land state state_used_mask in
      if state_error || (bit_bound <=? state_bit_used)
      then match atomic_fetch_sub buf1 0 1 with
           | None => OutOfBounds
           | Some (_, buf2) =>
             Done (if state_error then (-2, -2) else (-1, -1)) buf2
           end
      else claim_lg2 fuel buf1 word_count state_bit_used bit
    end.

(** [acquire_bounded], lines 435-505.  In its loop the two consecutive [if]s
    of the source are kept apart: the second reads the [bit] the first may
    have written. *)
Fixpoint claim_bounded (fuel : nat) (buf : buffer)
    (bit_bound word_count state_bit_used bit : Z) : outcome (Z * Z) :=
  match fuel with
  | O => OutOfFuel
  | S fuel' =>
    let word := Z.shiftr bit bits_per_int_lg2 in
    let mask := Z.shiftl 1 (Z.land bit bits_per_int_mask) in
    match atomic_fetch_or buf (Z.to_nat (word + 1)) mask with
    | None => OutOfBounds
    | Some (prev, buf') =>
      if Z.land prev mask =? 0
      then Done (int_of_u32 bit, int_of_u32 (state_bit_used + 1)) buf'
      else
        let j := if prev =? u32_max then -1 else countr_one prev in
        let bit1 :=
          if 0 <=? j then Z.lor (Z.shiftl word bits_per_int_lg2) j else bit in
        let bit2 :=
          if (j <? 0) || (bit_bound <=? bit1)
          then Z.lor (if word + 1 <? word_count
                      then Z.shiftl (word + 1) bits_per_int_lg2 else 0)
                     (Z.land bit1 bits_per_int_mask)
          else bit1 in
        claim_bounded fuel' buf' bit_bound word_count state_bit_used bit2
    end
  end.

Definition acquire_bounded (fuel : nat) (buf : buffer)
    (bit_bound bit state_header : Z) : outcome (Z * Z) :=
  if (max_bit_count <? bit_bound)
     || negb (Z.land state_header (not32 state_header_mask) =? 0)
     || (bit_bound <=? bit)
  then Done (-3, -3) buf
  else
    let word_count := Z.shiftr bit_bound bits_per_int_lg2 in
    match atomic_fetch_add buf 0 1 with
    | None => OutOfBounds
    | Some (state, buf1) =>
      let state_error := negb (state_header =? Z.land state state_header_mask) in
      let state_bit_used := Z.land state state_used_mask in
      if state_error || (bit_bound <=? state_bit_used)
      then match atomic_fetch_sub buf1 0 1 with
           | None => OutOfBounds
           | Some (_, buf2) =>
             Done (if state_error then (-2, -2) else (-1, -1)) buf2
           end
      else claim_bounded fuel buf1 bit_bound word_count state_bit_used bit
    end.

(** ** release and set *)

(** [(count & state_used_mask) - 1] with [count] an [int] holding the value
    fetched from the header: the arithmetic is unsigned, the result is
    returned as [int]. *)
Definition count_after (count : Z) : Z :=
  int_of_u32 (wrap32 (Z.land (int_of_u32 count) state_used_mask - 1)).

Definition release (buf : buffer) (bit state_header : Z) : outcome Z :=
  match buf !! 0%nat with
  | None => OutOfBounds
  | Some hdr =>
    if negb (state_header =? Z.land state_header_mask hdr) then Done (-2) buf
    else
      let mask := Z.shiftl 1 (Z.land bit bits_per_int_mask) in
      match atomic_fetch_and buf (Z.to_nat (Z.shiftr bit bits_per_int_lg2 + 1))
                             (not32 mask) with
      | None => OutOfBounds
      | Some (prev, buf1) =>
        if Z.land prev mask =? 0 then Done (-1) buf1
        else match atomic_fetch_sub buf1 0 1 with
             | None => OutOfBounds
             | Some (count, buf2) => Done (count_after count) buf2
             end
      end
  end.

Definition set (buf : buffer) (bit state_header : Z) : outcome Z :=
  match buf !! 0%nat with
  | None => OutOfBounds
  | Some hdr =>
    if negb (state_header =? Z.land state_header_mask hdr) then Done (-2) buf
    else
      let mask := Z.shiftl 1 (Z.land bit bits_per_int_mask) in
      match atomic_fetch_or buf (Z.to_nat (Z.shiftr bit bits_per_int_lg2 + 1))
                            mask with
      | None => OutOfBounds
      | Some (prev, buf1) =>
        if Z.land prev mask =? 0 then Done (-1) buf1
        else match atomic_fetch_sub buf1 0 1 with
             | None => OutOfBounds
             | Some (count, buf2) => Done (count_after count) buf2
             end
      end
  end.

(** ** Observations on a buffer *)

Definition header (buf : buffer) : Z := default 0 (buf !! 0%nat).
Definition used_count (buf : buffer) : Z := Z.land (header buf) state_used_mask.
Definition tag_of (buf : buffer) : Z := Z.land (header buf) state_header_mask.

(** Bit [bit] of the bitmap, read the way the operations address it. *)
Definition bit_is_set (buf : buffer) (bit : Z) : bool :=
  match buf !! Z.to_nat (Z.shiftr bit bits_per_int_lg2 + 1) with
  | Some w => Z.testbit w (Z.land bit bits_per_int_mask)
  | None => false
  end.

Fixpoint count_bits (n : nat) (w : Z) : Z :=
  match n with
  | O => 0
  | S n' => (if Z.testbit w (Z.of_nat n') then 1 else 0) + count_bits n' w
  end.

Definition popcount32 (w : Z) : Z := count_bits 32 w.

Definition sum_popcount (ws : list Z) : Z :=
  foldr (fun w acc => popcount32 w + acc) 0 ws.

(** The number of 1 bits of the bitmap (every word after the header). *)
Definition bitmap_popcount (buf : buffer) : Z := sum_popcount (tail buf).

Definition wf_buffer (buf : buffer) : Prop :=
  buf <> [] /\ Forall is_u32 buf.

(** The quiescent invariant for capacity [cap]. *)
Definition quiescent (cap : Z) (buf : buffer) : Prop :=
  used_count buf = bitmap_popcount buf /\ 0 <= used_count buf <= cap.

(** A zero-initialised buffer sized by [buffer_bound]. *)
Definition fresh (bit_bound : Z) : buffer :=
  replicate (Z.to_nat (buffer_bound bit_bound)) 0.

(** ** The retry loop in arithmetic form

    Both loops do the same thing on a failed claim: the fetch-or changed
    nothing, and the next bit is a function of the current bit and the word
    fetched.  [claim_loop] is that common shape, with shifts and masks read
    as division and remainder by 32; [claim_lg2_loop] and
    [claim_bounded_loop] below show that it is what the two source loops
    compute. *)

Definition word_index (bit : Z) : nat := Z.to_nat (bit / 32 + 1).

Definition next_base (word_count word : Z) : Z :=
  if word + 1 <? word_count then (word + 1) * 32 else 0.

Definition retry_lg2 (word_count bit prev : Z) : Z :=
  if prev =? u32_max
  then next_base word_count (bit / 32) + bit mod 32
  else bit / 32 * 32 + countr_one prev.

Definition retry_bounded (bit_bound word_count bit prev : Z) : Z :=
  if prev =? u32_max
  then next_base word_count (bit / 32) + bit mod 32
  else if bit_bound <=? bit / 32 * 32 + countr_one prev
       then next_base word_count (bit / 32) + countr_one prev
       else bit / 32 * 32 + countr_one prev.

Fixpoint claim_loop (retry : Z -> Z -> Z) (fuel : nat) (buf : buffer)
    (state_bit_used bit : Z) : outcome (Z * Z) :=
  match fuel with
  | O => OutOfFuel
  | S fuel' =>
    match buf !! word_index bit with
    | None => OutOfBounds
    | Some w =>
      if Z.testbit w (bit mod 32)
      then claim_loop retry fuel' buf state_bit_used (retry bit w)
      else Done (int_of_u32 bit, int_of_u32 (state_bit_used + 1))
                (<[word_index bit := Z.lor w (2 ^ (bit mod 32))]> buf)
    end
  end.

(** The bit is taken in [buf]: the loop goes on with the retry step. *)
Definition taken (buf : buffer) (b w : Z) : Prop :=
  buf !! word_index b = Some w /\ Z.testbit w (b mod 32) = true.

(** What both variants do once the arguments are accepted, on a buffer
    [h :: ws]: the tag check, the capacity check, then the loop on the
    buffer whose header has been incremented. *)
Definition reserved (retry : Z -> Z -> Z) (fuel : nat) (h : Z) (ws : list Z)
    (bit_bound bit state_header : Z) : outcome (Z * Z) :=
  if negb (state_header =? Z.land h state_header_mask)
  then Done (-2, -2) (h :: ws)
  else if bit_bound <=? h mod 2 ^ 26
  then Done (-1, -1) (h :: ws)
  else claim_loop retry fuel ((h + 1) :: ws) (h mod 2 ^ 26) bit.

(** ** The statements checked below *)

(** What a result [r] of an acquire on [before], leaving [after], has to look
    like: an error pair, or a bit below the capacity together with the
    incremented count, the bit being 0 before the call and 1 after it. *)
Definition acquire_result_ok (capacity : Z) (before after : buffer)
    (r : Z * Z) : Prop :=
  (exists c, r = (c, c) /\ (c = -1 \/ c = -2 \/ c = -3)) \/
  (exists b, r = (b, used_count before + 1) /\
             0 <= b < capacity /\ 1 <= used_count before + 1 /\
             bit_is_set before b = false /\ bit_is_set after b = true).

(** Releasing a bit twice: the first release returns the decremented count,
    the second returns -1 and leaves the buffer as the first left it. *)
Definition release_twice_ok (buf : buffer) (b state_header : Z) : Prop :=
  exists buf1,
    release buf b state_header = Done (used_count buf - 1) buf1 /\
    used_count buf1 = used_count buf - 1 /\
    release buf1 b state_header = Done (-1) buf1.

(** After an acquire took [s] to [s'] and returned [b]: releasing [b]
    restores [s], and an acquire with hint [b] returns [b] again. *)
Definition round_trip_ok (capacity : Z) (s s' : buffer)
    (state_header b : Z) : Prop :=
  (exists n, release s' b state_header = Done n s) /\
  (exists fuel n, acquire_bounded fuel s capacity b state_header = Done (b, n) s').

(** Consecutive calls of [acquire_bounded] with tag 0, one per hint; [None]
    as soon as one of them does not return. *)
Fixpoint acquire_seq (fuel : nat) (capacity : Z) (hints : list Z)
    (buf : buffer) : option (list (Z * Z) * buffer) :=
  match hints with
  | [] => Some ([], buf)
  | hint :: rest =>
    match acquire_bounded fuel buf capacity hint 0 with
    | Done r buf' =>
      match acquire_seq fuel capacity rest buf' with
      | Some (rs, final) => Some (r :: rs, final)
      | None => None
      end
    | _ => None
    end
  end.

(** The possible results of an acquire with capacity [bit_bound] on the
    buffer [h :: ws], and the buffer each leaves: the three error pairs with
    the buffer untouched, or a claimed bit [b] whose word [w] had it clear. *)
Definition acquire_shape (bit_bound h : Z) (ws : list Z) (state_header : Z)
    (r : Z * Z) (buf' : buffer) : Prop :=
  (r = (-3, -3) /\ buf' = h :: ws) \/
  (r = (-2, -2) /\ buf' = h :: ws) \/
  (r = (-1, -1) /\ buf' = h :: ws) \/
  (exists b w,
     0 <= b < 2 ^ 26 /\ bit_bound <= 2 ^ 25 /\
     Z.land state_header (not32 state_header_mask) = 0 /\
     state_header = Z.land h state_header_mask /\
     h mod 2 ^ 26 < bit_bound /\
     ws !! Z.to_nat (b / 32) = Some w /\ Z.testbit w (b mod 32) = false /\
     r = (b, h mod 2 ^ 26 + 1) /\
     buf' = (h + 1) :: <[Z.to_nat (b / 32) := Z.lor w (2 ^ (b mod 32))]> ws).

(** Consecutive calls of [acquire_bounded], each with its own capacity, hint
    and state header; [None] as soon as one of them does not return. *)
Fixpoint acquire_calls (fuel : nat) (calls : list (Z * Z * Z))
    (buf : buffer) : option (list (Z * Z) * buffer) :=
  match calls with
  | [] => Some ([], buf)
  | (capacity, hint, state_header) :: rest =>
    match acquire_bounded fuel buf capacity hint state_header with
    | Done r buf' =>
      match acquire_calls fuel rest buf' with
      | Some (rs, final) => Some (r :: rs, final)
      | None => None
      end
    | _ => None
    end
  end.

(** Consecutive calls of [set] with tag 0, one per bit. *)
Fixpoint set_seq (bits : list Z) (buf : buffer) : option buffer :=
  match bits with
  | [] => Some buf
  | bit :: rest =>
    match set buf bit 0 with
    | Done _ buf' => set_seq rest buf'
    | _ => None
    end
  end.

(** Capacities whose last bitmap word is not partial, or that fit in one
    word: every power of two is one. *)
Definition aligned (bit_bound : Z) : Prop :=
  bit_bound mod 32 = 0 \/ bit_bound < 32.

(** * Properties *)

(** ** Bit-level facts *)

Lemma u32_max_ones : u32_max = Z.ones 32.
Proof. reflexivity. Qed.

Lemma land_low5 b : Z.land b bits_per_int_mask = b mod 32.
Proof. change bits_per_int_mask with (Z.ones 5). now rewrite Z.land_ones. Qed.

Lemma shiftr_lg2 b : Z.shiftr b bits_per_int_lg2 = b / 32.
Proof. unfold bits_per_int_lg2. now rewrite Z.shiftr_div_pow2. Qed.

Lemma shiftl_lg2 a : Z.shiftl a bits_per_int_lg2 = a * 32.
Proof. unfold bits_per_int_lg2. now rewrite Z.shiftl_mul_pow2. Qed.

Lemma testbit_pow2 k i : 0 <= k -> Z.testbit (2 ^ k) i = (k =? i).
Proof. intros Hk. now rewrite Z.pow2_bits_eqb. Qed.

Lemma land_pow2_eqb w k :
  0 <= k -> (Z.land w (2 ^ k) =? 0) = negb (Z.testbit w k).
Proof.
  intros Hk. destruct (Z.testbit w k) eqn:Hb; simpl.
  - apply Z.eqb_neq. intros H0.
    assert (Hk' : Z.testbit (Z.land w (2 ^ k)) k = true).
    { rewrite Z.land_spec, Hb, testbit_pow2, Z.eqb_refl by lia. reflexivity. }
    rewrite H0, Z.testbit_0_l in Hk'. discriminate.
  - apply Z.eqb_eq. apply Z.bits_inj'. intros i Hi.
    rewrite Z.land_spec, testbit_pow2, Z.testbit_0_l by lia.
    destruct (Z.eqb_spec k i) as [->|]; [now rewrite Hb | apply andb_false_r].
Qed.

Lemma lor_pow2_id w k : 0 <= k -> Z.testbit w k = true -> Z.lor w (2 ^ k) = w.
Proof.
  intros Hk Hb. apply Z.bits_inj'. intros i Hi.
  rewrite Z.lor_spec, testbit_pow2 by lia.
  destruct (Z.eqb_spec k i) as [->|]; [now rewrite Hb | apply orb_false_r].
Qed.

Lemma testbit_u32_high w i : is_u32 w -> 32 <= i -> Z.testbit w i = false.
Proof.
  intros [H0 H1] Hi. unfold u32_max in H1.
  rewrite <- (Z.mod_small w (2 ^ 32)) by lia.
  apply Z.mod_pow2_bits_high. lia.
Qed.

Lemma is_u32_of_bits w :
  0 <= w -> (forall i, 32 <= i -> Z.testbit w i = false) -> is_u32 w.
Proof.
  intros H0 Hhi. split; [exact H0|].
  assert (Hm : w mod 2 ^ 32 = w).
  { apply Z.bits_inj'. intros i Hi. destruct (Z.lt_ge_cases i 32).
    - now rewrite Z.mod_pow2_bits_low.
    - rewrite Z.mod_pow2_bits_high, Hhi by lia. reflexivity. }
  pose proof (Z.mod_pos_bound w (2 ^ 32) ltac:(lia)). unfold u32_max. lia.
Qed.

Lemma is_u32_lor w k : is_u32 w -> 0 <= k < 32 -> is_u32 (Z.lor w (2 ^ k)).
Proof.
  intros Hw Hk. apply is_u32_of_bits.
  - apply Z.lor_nonneg. split; [apply Hw | lia].
  - intros i Hi. rewrite Z.lor_spec, testbit_pow2, (testbit_u32_high w) by (auto; lia).
    destruct (Z.eqb_spec k i); [lia | reflexivity].
Qed.

Lemma is_u32_land w m : is_u32 w -> is_u32 (Z.land w m).
Proof.
  intros Hw. apply is_u32_of_bits.
  - apply Z.land_nonneg. left. apply Hw.
  - intros i Hi. now rewrite Z.land_spec, (testbit_u32_high w).
Qed.

Lemma is_u32_wrap z : is_u32 (wrap32 z).
Proof.
  unfold is_u32, wrap32, u32_max.
  pose proof (Z.mod_pos_bound z (2 ^ 32) ltac:(lia)). lia.
Qed.

Lemma testbit_not32 m i :
  0 <= i -> Z.testbit (not32 m) i = xorb (Z.testbit m i) (i <? 32).
Proof.
  intros Hi. unfold not32. rewrite Z.lxor_spec, u32_max_ones. f_equal.
  destruct (Z.ltb_spec i 32).
  - apply Z.ones_spec_low. lia.
  - apply Z.ones_spec_high. lia.
Qed.

Lemma land_not32_id w k :
  is_u32 w -> 0 <= k -> Z.testbit w k = false -> Z.land w (not32 (2 ^ k)) = w.
Proof.
  intros Hw Hk Hb. apply Z.bits_inj'. intros i Hi.
  rewrite Z.land_spec, testbit_not32, testbit_pow2 by lia.
  destruct (Z.eqb_spec k i) as [->|].
  - rewrite Hb. reflexivity.
  - destruct (Z.ltb_spec i 32); simpl.
    + apply andb_true_r.
    + rewrite (testbit_u32_high w) by (auto; lia). reflexivity.
Qed.

Lemma land_not32_lor w k :
  is_u32 w -> 0 <= k < 32 -> Z.testbit w k = false ->
  Z.land (Z.lor w (2 ^ k)) (not32 (2 ^ k)) = w.
Proof.
  intros Hw Hk Hb. apply Z.bits_inj'. intros i Hi.
  rewrite Z.land_spec, Z.lor_spec, testbit_not32, testbit_pow2 by lia.
  destruct (Z.eqb_spec k i) as [->|].
  - rewrite Hb. simpl.
    replace (i <? 32) with true by (symmetry; apply Z.ltb_lt; lia). reflexivity.
  - destruct (Z.ltb_spec i 32); simpl.
    + rewrite orb_false_r. apply andb_true_r.
    + rewrite (testbit_u32_high w) by (auto; lia). reflexivity.
Qed.

Lemma testbit_land_not32 w k i :
  0 <= i -> 0 <= k < 32 -> is_u32 w ->
  Z.testbit (Z.land w (not32 (2 ^ k))) i = Z.testbit w i && negb (k =? i).
Proof.
  intros Hi Hk Hw. rewrite Z.land_spec, testbit_not32, testbit_pow2 by lia.
  destruct (Z.eqb_spec k i) as [->|]; simpl.
  - replace (i <? 32) with true by (symmetry; apply Z.ltb_lt; lia).
    reflexivity.
  - destruct (Z.ltb_spec i 32); [reflexivity|].
    rewrite (testbit_u32_high w) by (auto; lia). reflexivity.
Qed.

Lemma lor_shiftl_lg2 a j :
  0 <= j < 32 -> Z.lor (Z.shiftl a bits_per_int_lg2) j = a * 32 + j.
Proof.
  intros Hj. rewrite shiftl_lg2.
  rewrite <- Z.lxor_lor, <- Z.add_nocarry_lxor; trivial.
  all: apply Z.bits_inj'; intros i Hi; rewrite Z.land_spec, Z.testbit_0_l.
  all: destruct (Z.lt_ge_cases i 5).
  all: try (replace (a * 32) with (a * 2 ^ 5) by lia;
            rewrite Z.mul_pow2_bits_low by lia; reflexivity).
  all: replace (Z.testbit j i) with false; [apply andb_false_r|].
  all: symmetry; rewrite <- (Z.mod_small j (2 ^ 5)) by lia.
  all: apply Z.mod_pow2_bits_high; lia.
Qed.

(** ** Header arithmetic *)

Lemma used_mask_mod h : Z.land h state_used_mask = h mod 2 ^ 26.
Proof. change state_used_mask with (Z.ones 26). now rewrite Z.land_ones. Qed.

Lemma testbit_header_mask i :
  0 <= i -> Z.testbit state_header_mask i = (26 <=? i) && (i <? 31).
Proof.
  intros Hi. change state_header_mask with (Z.shiftl (Z.ones 5) 26).
  rewrite Z.shiftl_spec by lia.
  destruct (Z.leb_spec 26 i); simpl.
  - destruct (Z.ltb_spec i 31).
    + apply Z.ones_spec_low. lia.
    + apply Z.ones_spec_high. lia.
  - apply Z.testbit_neg_r. lia.
Qed.

Lemma tag_div h h' :
  h / 2 ^ 26 = h' / 2 ^ 26 ->
  Z.land h state_header_mask = Z.land h' state_header_mask.
Proof.
  intros Hd. apply Z.bits_inj'. intros i Hi.
  rewrite !Z.land_spec, testbit_header_mask by lia.
  destruct (Z.leb_spec 26 i); simpl; [|now rewrite !andb_false_r].
  replace i with ((i - 26) + 26) at 1 3 by lia.
  rewrite <- !Z.div_pow2_bits, Hd by lia. reflexivity.
Qed.

Lemma header_succ h :
  is_u32 h -> h mod 2 ^ 26 < 2 ^ 26 - 1 ->
  wrap32 (h + 1) = h + 1 /\ (h + 1) mod 2 ^ 26 = h mod 2 ^ 26 + 1 /\
  (h + 1) / 2 ^ 26 = h / 2 ^ 26.
Proof.
  unfold is_u32, wrap32, u32_max. intros Hh Hu.
  change (2 ^ 26) with 67108864 in *. change (2 ^ 32) with 4294967296.
  Z.div_mod_to_equations. lia.
Qed.

Lemma header_pred h :
  is_u32 h -> 1 <= h mod 2 ^ 26 ->
  wrap32 (h - 1) = h - 1 /\ (h - 1) mod 2 ^ 26 = h mod 2 ^ 26 - 1 /\
  (h - 1) / 2 ^ 26 = h / 2 ^ 26.
Proof.
  unfold is_u32, wrap32, u32_max. intros Hh Hu.
  change (2 ^ 26) with 67108864 in *. change (2 ^ 32) with 4294967296.
  Z.div_mod_to_equations. lia.
Qed.

Lemma wrap_add_sub h : is_u32 h -> wrap32 (wrap32 (h + 1) - 1) = h.
Proof.
  unfold is_u32, wrap32, u32_max. intros Hh.
  change (2 ^ 32) with 4294967296.
  Z.div_mod_to_equations. lia.
Qed.

Lemma wrap_sub_add h : is_u32 h -> wrap32 (wrap32 (h - 1) + 1) = h.
Proof.
  unfold is_u32, wrap32, u32_max. intros Hh.
  change (2 ^ 32) with 4294967296.
  Z.div_mod_to_equations. lia.
Qed.

Lemma count_after_spec count :
  is_u32 count -> count_after count = count mod 2 ^ 26 - 1.
Proof.
  unfold is_u32, u32_max, count_after. intros Hc.
  rewrite used_mask_mod.
  assert (Hm : int_of_u32 count mod 2 ^ 26 = count mod 2 ^ 26).
  { unfold int_of_u32. destruct (count <? 2 ^ 31); [reflexivity|].
    change (2 ^ 26) with 67108864. change (2 ^ 32) with (64 * 67108864).
    Z.div_mod_to_equations. lia. }
  rewrite Hm. unfold wrap32, int_of_u32.
  pose proof (Z.mod_pos_bound count (2 ^ 26) ltac:(lia)) as Hb.
  change (2 ^ 26) with 67108864 in *.
  destruct (Z.eq_dec (count mod 67108864) 0) as [E|E].
  - rewrite E. reflexivity.
  - rewrite Z.mod_small by lia.
    destruct (Z.ltb_spec (count mod 67108864 - 1) (2 ^ 31)); lia.
Qed.

Lemma int_of_u32_small z : 0 <= z < 2 ^ 31 -> int_of_u32 z = z.
Proof. intros Hz. unfold int_of_u32. destruct (Z.ltb_spec z (2 ^ 31)); lia. Qed.

(** ** Population count *)

Lemma count_bits_bounds n w : 0 <= count_bits n w <= Z.of_nat n.
Proof.
  induction n as [|n IH]; [simpl; lia|].
  cbn [count_bits]. destruct (Z.testbit w (Z.of_nat n)); lia.
Qed.

Lemma count_bits_ext n w w' :
  (forall i, 0 <= i < Z.of_nat n -> Z.testbit w' i = Z.testbit w i) ->
  count_bits n w' = count_bits n w.
Proof.
  induction n as [|n IH]; intros Hext; [reflexivity|].
  cbn [count_bits]. rewrite Hext by lia. rewrite IH; [reflexivity|].
  intros i Hi. apply Hext. lia.
Qed.

Lemma count_bits_flip n w w' k :
  0 <= k < Z.of_nat n ->
  Z.testbit w k = false -> Z.testbit w' k = true ->
  (forall i, 0 <= i < Z.of_nat n -> i <> k -> Z.testbit w' i = Z.testbit w i) ->
  count_bits n w' = count_bits n w + 1.
Proof.
  induction n as [|n IH]; intros Hk Hb Hb' Hext; [lia|].
  cbn [count_bits]. destruct (Z.eq_dec k (Z.of_nat n)) as [->|Hne].
  - rewrite Hb, Hb'. rewrite (count_bits_ext n w w'); [lia|].
    intros i Hi. apply Hext; lia.
  - rewrite Hext by lia. rewrite IH; [lia|lia|assumption|assumption|].
    intros i Hi Hik. apply Hext; lia.
Qed.

Lemma count_bits_prefix n w j :
  0 <= j <= Z.of_nat n ->
  (forall i, 0 <= i < j -> Z.testbit w i = true) ->
  j <= count_bits n w.
Proof.
  revert j. induction n as [|n IH]; intros j Hj Hall; [simpl; lia|].
  cbn [count_bits]. destruct (Z.eq_dec j (Z.of_nat (S n))) as [E|E].
  - rewrite Hall by lia.
    assert (j - 1 <= count_bits n w); [|lia].
    apply IH; [lia|]. intros i Hi. apply Hall. lia.
  - assert (j <= count_bits n w) by (apply IH; [lia|assumption]).
    destruct (Z.testbit w (Z.of_nat n)); lia.
Qed.

Lemma popcount32_pos w k :
  0 <= k < 32 -> Z.testbit w k = true -> 1 <= popcount32 w.
Proof.
  intros Hk Hb. unfold popcount32.
  pose proof (count_bits_bounds 32 (Z.ldiff w (2 ^ k))) as Hlo.
  rewrite (count_bits_flip 32 (Z.ldiff w (2 ^ k)) w k); try lia; trivial.
  - rewrite Z.ldiff_spec, testbit_pow2, Z.eqb_refl by lia. apply andb_false_r.
  - intros i Hi Hne. rewrite Z.ldiff_spec, testbit_pow2 by lia.
    destruct (Z.eqb_spec k i); [lia|]. simpl. now rewrite andb_true_r.
Qed.

Lemma popcount32_bounds w : 0 <= popcount32 w <= 32.
Proof. apply (count_bits_bounds 32). Qed.

Lemma sum_popcount_insert (ws : list Z) i w w' :
  ws !! i = Some w ->
  sum_popcount (<[i := w']> ws) = sum_popcount ws - popcount32 w + popcount32 w'.
Proof.
  revert i. induction ws as [|x ws IH]; intros [|i] Hl; simplify_eq/=.
  - lia.
  - rewrite (IH _ Hl). lia.
Qed.

Lemma sum_popcount_lookup (ws : list Z) i w :
  ws !! i = Some w -> popcount32 w <= sum_popcount ws.
Proof.
  revert i. induction ws as [|x ws IH]; intros [|i] Hl; simplify_eq/=.
  - assert (0 <= sum_popcount ws); [|lia].
    clear. induction ws as [|y ws IH]; simpl; [lia|].
    pose proof (popcount32_bounds y). lia.
  - specialize (IH _ Hl). pose proof (popcount32_bounds x). lia.
Qed.

(** ** Trailing ones *)

Lemma countr_one_from_spec n x : forall i,
  0 <= i ->
  i <= countr_one_from n i x <= i + Z.of_nat n /\
  (forall k, i <= k < countr_one_from n i x -> Z.testbit x k = true) /\
  (countr_one_from n i x < i + Z.of_nat n ->
   Z.testbit x (countr_one_from n i x) = false).
Proof.
  induction n as [|n IH]; intros i Hi.
  - simpl. repeat split; intros; lia.
  - cbn [countr_one_from]. destruct (Z.testbit x i) eqn:Hb.
    + destruct (IH (i + 1) ltac:(lia)) as (Hr & Hall & Hstop).
      repeat split; try lia.
      * intros k Hk. destruct (Z.eq_dec k i) as [->|]; [assumption|].
        apply Hall. lia.
      * intros Hlt. apply Hstop. lia.
    + repeat split; try lia. intros _. exact Hb.
Qed.

Lemma countr_one_range x : 0 <= countr_one x <= 32.
Proof.
  destruct (countr_one_from_spec 32 x 0 ltac:(lia)) as (Hr & _).
  unfold countr_one. simpl Z.of_nat in Hr. lia.
Qed.

Lemma countr_one_ones x k :
  0 <= k < countr_one x -> Z.testbit x k = true.
Proof.
  destruct (countr_one_from_spec 32 x 0 ltac:(lia)) as (_ & Hall & _).
  apply Hall.
Qed.

Lemma countr_one_zero x :
  countr_one x < 32 -> Z.testbit x (countr_one x) = false.
Proof.
  destruct (countr_one_from_spec 32 x 0 ltac:(lia)) as (_ & _ & Hstop).
  apply Hstop.
Qed.

Lemma countr_one_lt x : is_u32 x -> x <> u32_max -> countr_one x < 32.
Proof.
  intros Hx Hne. pose proof (countr_one_range x) as Hr.
  destruct (Z.eq_dec (countr_one x) 32) as [E|]; [|lia].
  exfalso. apply Hne. rewrite u32_max_ones. apply Z.bits_inj'. intros i Hi.
  destruct (Z.lt_ge_cases i 32).
  - rewrite Z.ones_spec_low by lia. apply countr_one_ones. lia.
  - rewrite Z.ones_spec_high by lia. now apply testbit_u32_high.
Qed.

Lemma countr_one_le_popcount x : countr_one x <= popcount32 x.
Proof.
  apply (count_bits_prefix 32).
  - pose proof (countr_one_range x). simpl Z.of_nat. lia.
  - intros i Hi. now apply countr_one_ones.
Qed.

Lemma popcount32_full : popcount32 u32_max = 32.
Proof. reflexivity. Qed.

(** ** The source loops compute [claim_loop] *)

Lemma div32_block a j : 0 <= j < 32 -> (a * 32 + j) / 32 = a /\ (a * 32 + j) mod 32 = j.
Proof. intros Hj. Z.div_mod_to_equations. lia. Qed.

Lemma mask_pow2 bit : Z.shiftl 1 (Z.land bit bits_per_int_mask) = 2 ^ (bit mod 32).
Proof. rewrite land_low5. apply Z.shiftl_1_l. Qed.

Lemma mod32_range b : 0 <= b mod 32 < 32.
Proof. apply Z.mod_pos_bound. lia. Qed.

Lemma word_index_eq bit :
  Z.to_nat (Z.shiftr bit bits_per_int_lg2 + 1) = word_index bit.
Proof. unfold word_index. now rewrite shiftr_lg2. Qed.

Lemma next_base_eq word_count word j :
  0 <= j < 32 ->
  Z.lor (if word + 1 <? word_count
         then Z.shiftl (word + 1) bits_per_int_lg2 else 0) j
  = next_base word_count word + j.
Proof.
  intros Hj. unfold next_base. destruct (word + 1 <? word_count).
  - now apply lor_shiftl_lg2.
  - apply Z.lor_0_l.
Qed.

Lemma retry_lg2_eq word_count bit prev :
  is_u32 prev ->
  (let word := Z.shiftr bit bits_per_int_lg2 in
   let j := if prev =? u32_max then -1 else countr_one prev in
   if 0 <=? j
   then Z.lor (Z.shiftl word bits_per_int_lg2) j
   else Z.lor (if word + 1 <? word_count
               then Z.shiftl (word + 1) bits_per_int_lg2 else 0)
              (Z.land bit bits_per_int_mask))
  = retry_lg2 word_count bit prev.
Proof.
  intros Hp. cbv zeta. unfold retry_lg2. rewrite shiftr_lg2, land_low5.
  destruct (Z.eqb_spec prev u32_max) as [E|E].
  - simpl. apply next_base_eq, mod32_range.
  - pose proof (countr_one_range prev). pose proof (countr_one_lt prev Hp E).
    replace (0 <=? countr_one prev) with true by (symmetry; apply Z.leb_le; lia).
    apply lor_shiftl_lg2. lia.
Qed.

Lemma retry_bounded_eq bit_bound word_count bit prev :
  is_u32 prev ->
  (let word := Z.shiftr bit bits_per_int_lg2 in
   let j := if prev =? u32_max then -1 else countr_one prev in
   let bit1 :=
     if 0 <=? j then Z.lor (Z.shiftl word bits_per_int_lg2) j else bit in
   if (j <? 0) || (bit_bound <=? bit1)
   then Z.lor (if word + 1 <? word_count
               then Z.shiftl (word + 1) bits_per_int_lg2 else 0)
              (Z.land bit1 bits_per_int_mask)
   else bit1)
  = retry_bounded bit_bound word_count bit prev.
Proof.
  intros Hp. cbv zeta. unfold retry_bounded. rewrite shiftr_lg2.
  destruct (Z.eqb_spec prev u32_max) as [E|E].
  - simpl. rewrite land_low5. apply next_base_eq, mod32_range.
  - pose proof (countr_one_range prev). pose proof (countr_one_lt prev Hp E).
    replace (0 <=? countr_one prev) with true by (symmetry; apply Z.leb_le; lia).
    replace (countr_one prev <? 0) with false by (symmetry; apply Z.ltb_ge; lia).
    rewrite lor_shiftl_lg2 by lia. simpl.
    destruct (bit_bound <=? bit / 32 * 32 + countr_one prev); [|reflexivity].
    rewrite land_low5.
    destruct (div32_block (bit / 32) (countr_one prev) ltac:(lia)) as [_ ->].
    apply next_base_eq. lia.
Qed.

Lemma fetch_or_taken (buf : buffer) bit w :
  buf !! word_index bit = Some w -> Z.testbit w (bit mod 32) = true ->
  <[word_index bit := Z.lor w (2 ^ (bit mod 32))]> buf = buf.
Proof.
  intros Hl Hb. rewrite lor_pow2_id by (trivial; apply mod32_range).
  now apply list_insert_id.
Qed.

Lemma claim_lg2_loop fuel : forall buf word_count used bit,
  Forall is_u32 buf ->
  claim_lg2 fuel buf word_count used bit
  = claim_loop (retry_lg2 word_count) fuel buf used bit.
Proof.
  induction fuel as [|fuel IH]; intros buf wc used bit Hwf; [reflexivity|].
  cbn [claim_lg2 claim_loop]. cbv zeta. unfold atomic_fetch_or.
  rewrite word_index_eq, mask_pow2.
  destruct (buf !! word_index bit) as [w|] eqn:Hl; [|reflexivity].
  rewrite land_pow2_eqb by apply mod32_range.
  destruct (Z.testbit w (bit mod 32)) eqn:Hb; simpl; [|reflexivity].
  rewrite (fetch_or_taken buf bit w Hl Hb).
  assert (Hw : is_u32 w) by (eapply Forall_lookup_1; eauto).
  pose proof (retry_lg2_eq wc bit w Hw) as Hr. cbv zeta in Hr.
  rewrite Hr. now apply IH.
Qed.

Lemma claim_bounded_loop fuel : forall buf bit_bound word_count used bit,
  Forall is_u32 buf ->
  claim_bounded fuel buf bit_bound word_count used bit
  = claim_loop (retry_bounded bit_bound word_count) fuel buf used bit.
Proof.
  induction fuel as [|fuel IH]; intros buf bb wc used bit Hwf; [reflexivity|].
  cbn [claim_bounded claim_loop]. cbv zeta. unfold atomic_fetch_or.
  rewrite word_index_eq, mask_pow2.
  destruct (buf !! word_index bit) as [w|] eqn:Hl; [|reflexivity].
  rewrite land_pow2_eqb by apply mod32_range.
  destruct (Z.testbit w (bit mod 32)) eqn:Hb; simpl; [|reflexivity].
  rewrite (fetch_or_taken buf bit w Hl Hb).
  assert (Hw : is_u32 w) by (eapply Forall_lookup_1; eauto).
  pose proof (retry_bounded_eq bb wc bit w Hw) as Hr. cbv zeta in Hr.
  rewrite Hr. now apply IH.
Qed.

(** ** The retry loop under a loop invariant *)

Section ClaimLoop.
Variables (retry : Z -> Z -> Z) (buf : buffer) (used : Z).

Section Invariant.
Variable P : Z -> Prop.
Hypothesis retry_keeps : forall b w, P b -> taken buf b w -> P (retry b w).

Lemma claim_loop_done fuel : forall bit r buf',
  P bit -> claim_loop retry fuel buf used bit = Done r buf' ->
  exists b w,
    P b /\ buf !! word_index b = Some w /\
    Z.testbit w (b mod 32) = false /\
    r = (int_of_u32 b, int_of_u32 (used + 1)) /\
    buf' = <[word_index b := Z.lor w (2 ^ (b mod 32))]> buf.
Proof.
  induction fuel as [|fuel IH]; intros bit r buf' HP Hrun; [discriminate|].
  cbn [claim_loop] in Hrun.
  destruct (buf !! word_index bit) as [w|] eqn:Hl; [|discriminate].
  destruct (Z.testbit w (bit mod 32)) eqn:Hb.
  - apply (IH _ _ _ (retry_keeps bit w HP (conj Hl Hb)) Hrun).
  - inversion Hrun; subst. exists bit, w. auto.
Qed.

Lemma claim_loop_ext retry' fuel : forall bit,
  (forall b w, P b -> taken buf b w -> retry' b w = retry b w) ->
  P bit ->
  claim_loop retry' fuel buf used bit = claim_loop retry fuel buf used bit.
Proof.
  induction fuel as [|fuel IH]; intros bit Heq HP; [reflexivity|].
  cbn [claim_loop].
  destruct (buf !! word_index bit) as [w|] eqn:Hl; [|reflexivity].
  destruct (Z.testbit w (bit mod 32)) eqn:Hb; [|reflexivity].
  rewrite (Heq bit w HP (conj Hl Hb)).
  apply IH; [assumption|]. apply retry_keeps; [assumption|now split].
Qed.
End Invariant.

(** A taken bit that [retry] maps to itself is tried for ever. *)
Lemma claim_loop_stuck bit w :
  taken buf bit w -> retry bit w = bit ->
  forall fuel, claim_loop retry fuel buf used bit = OutOfFuel.
Proof.
  intros [Hl Hb] Hfix. induction fuel as [|fuel IH]; [reflexivity|].
  cbn [claim_loop]. now rewrite Hl, Hb, Hfix.
Qed.

Lemma claim_loop_hit fuel bit w :
  buf !! word_index bit = Some w -> Z.testbit w (bit mod 32) = false ->
  claim_loop retry (S fuel) buf used bit
  = Done (int_of_u32 bit, int_of_u32 (used + 1))
       (<[word_index bit := Z.lor w (2 ^ (bit mod 32))]> buf).
Proof. intros Hl Hb. cbn [claim_loop]. now rewrite Hl, Hb. Qed.

Lemma claim_loop_miss fuel bit w :
  taken buf bit w ->
  claim_loop retry (S fuel) buf used bit
  = claim_loop retry fuel buf used (retry bit w).
Proof. intros [Hl Hb]. cbn [claim_loop]. now rewrite Hl, Hb. Qed.
End ClaimLoop.

(** ** The operations on a well-formed buffer *)

Lemma wf_buffer_cons buf :
  wf_buffer buf -> exists h ws, buf = h :: ws /\ is_u32 h /\ Forall is_u32 ws.
Proof.
  intros [Hne Hall]. destruct buf as [|h ws]; [congruence|].
  exists h, ws. inversion Hall; subst. auto.
Qed.

Lemma wf_buffer_intro h ws : is_u32 h -> Forall is_u32 ws -> wf_buffer (h :: ws).
Proof. intros Hh Hws. split; [discriminate | now constructor]. Qed.

Lemma used_count_cons h ws : used_count (h :: ws) = h mod 2 ^ 26.
Proof. unfold used_count, header. simpl. apply used_mask_mod. Qed.

Lemma used_count_range buf : 0 <= used_count buf < 2 ^ 26.
Proof.
  unfold used_count. rewrite used_mask_mod. apply Z.mod_pos_bound. lia.
Qed.

Lemma word_index_succ b : 0 <= b -> word_index b = S (Z.to_nat (b / 32)).
Proof.
  intros Hb. unfold word_index.
  assert (0 <= b / 32) by (apply Z.div_pos; lia).
  rewrite Z2Nat.inj_add by lia. rewrite Nat.add_comm. reflexivity.
Qed.

(** The reserve phase of [acquire_bounded], case by case. *)
Lemma acquire_bounded_unfold fuel h ws bit_bound bit state_header :
  is_u32 h -> Forall is_u32 ws ->
  acquire_bounded fuel (h :: ws) bit_bound bit state_header =
  if (max_bit_count <? bit_bound)
     || negb (Z.land state_header (not32 state_header_mask) =? 0)
     || (bit_bound <=? bit)
  then Done (-3, -3) (h :: ws)
  else reserved (retry_bounded bit_bound (bit_bound / 32)) fuel h ws
                bit_bound bit state_header.
Proof.
  intros Hh Hws. unfold acquire_bounded, reserved.
  destruct (_ || _ || _) eqn:Hargs; [reflexivity|].
  apply orb_false_elim in Hargs as [Hargs _].
  apply orb_false_elim in Hargs as [Hmax _]. apply Z.ltb_ge in Hmax.
  change max_bit_count with (2 ^ 25) in Hmax.
  cbv zeta. unfold atomic_fetch_add, atomic_fetch_sub. simpl.
  rewrite used_mask_mod, wrap_add_sub by assumption.
  destruct (negb (state_header =? Z.land h state_header_mask)); [reflexivity|].
  simpl. destruct (Z.leb_spec bit_bound (h mod 2 ^ 26)); [reflexivity|].
  destruct (header_succ h Hh ltac:(lia)) as (Hw & _). rewrite Hw.
  rewrite claim_bounded_loop, shiftr_lg2; [reflexivity|].
  constructor; [|assumption]. rewrite <- Hw. apply is_u32_wrap.
Qed.

Lemma wrap_pow2 lg2 : 0 <= lg2 <= 25 -> wrap32 (Z.shiftl 1 lg2) = 2 ^ lg2.
Proof.
  intros Hl. rewrite Z.shiftl_1_l. unfold wrap32. apply Z.mod_small.
  split; [lia|]. apply Z.pow_lt_mono_r; lia.
Qed.

Lemma acquire_bounded_lg2_unfold fuel h ws lg2 bit state_header :
  is_u32 h -> Forall is_u32 ws -> 0 <= lg2 <= 25 ->
  acquire_bounded_lg2 fuel (h :: ws) lg2 bit state_header =
  if negb (Z.land state_header (not32 state_header_mask) =? 0)
     || (2 ^ lg2 <? bit)
  then Done (-3, -3) (h :: ws)
  else reserved (retry_lg2 (2 ^ lg2 / 32)) fuel h ws (2 ^ lg2) bit state_header.
Proof.
  intros Hh Hws Hl. unfold acquire_bounded_lg2, reserved. cbv zeta.
  rewrite wrap_pow2 by assumption.
  replace (max_bit_count_lg2 <? lg2) with false
    by (symmetry; apply Z.ltb_ge; unfold max_bit_count_lg2; lia).
  rewrite orb_false_l.
  destruct (_ || _) eqn:Hargs; [reflexivity|].
  assert (Hp : 2 ^ lg2 <= 2 ^ 25) by (apply Z.pow_le_mono_r; lia).
  unfold atomic_fetch_add, atomic_fetch_sub. simpl.
  rewrite used_mask_mod, wrap_add_sub by assumption.
  destruct (negb (state_header =? Z.land h state_header_mask)); [reflexivity|].
  simpl. destruct (Z.leb_spec (2 ^ lg2) (h mod 2 ^ 26)); [reflexivity|].
  destruct (header_succ h Hh ltac:(lia)) as (Hw & _). rewrite Hw.
  rewrite claim_lg2_loop, shiftr_lg2; [reflexivity|].
  constructor; [|assumption]. rewrite <- Hw. apply is_u32_wrap.
Qed.

Lemma acquire_bounded_lg2_too_large fuel buf lg2 bit state_header :
  25 < lg2 -> acquire_bounded_lg2 fuel buf lg2 bit state_header = Done (-3, -3) buf.
Proof.
  intros Hl. unfold acquire_bounded_lg2. cbv zeta.
  replace (max_bit_count_lg2 <? lg2) with true
    by (symmetry; apply Z.ltb_lt; unfold max_bit_count_lg2; lia).
  reflexivity.
Qed.

Lemma taken_cons h ws b w :
  0 <= b ->
  taken (h :: ws) b w <->
  ws !! Z.to_nat (b / 32) = Some w /\ Z.testbit w (b mod 32) = true.
Proof. intros Hb. unfold taken. now rewrite word_index_succ. Qed.

(** What [reserved] can return, for any loop invariant [P] on the bit
    tried. *)
Lemma reserved_cases (P : Z -> Prop) retry fuel h ws bit_bound bit hdr r buf' :
  bit_bound <= 2 ^ 25 ->
  (forall b, P b -> 0 <= b < 2 ^ 31) ->
  (h mod 2 ^ 26 < bit_bound ->
   forall b w, P b -> taken ((h + 1) :: ws) b w -> P (retry b w)) ->
  (h mod 2 ^ 26 < bit_bound -> P bit) ->
  reserved retry fuel h ws bit_bound bit hdr = Done r buf' ->
  (r = (-2, -2) /\ buf' = h :: ws /\ hdr <> Z.land h state_header_mask) \/
  (r = (-1, -1) /\ buf' = h :: ws /\ hdr = Z.land h state_header_mask /\
   bit_bound <= h mod 2 ^ 26) \/
  (exists b w,
     P b /\ hdr = Z.land h state_header_mask /\ h mod 2 ^ 26 < bit_bound /\
     ws !! Z.to_nat (b / 32) = Some w /\ Z.testbit w (b mod 32) = false /\
     r = (b, h mod 2 ^ 26 + 1) /\
     buf' = (h + 1) :: <[Z.to_nat (b / 32) := Z.lor w (2 ^ (b mod 32))]> ws).
Proof.
  intros Hbb HP Hkeep Hinit. unfold reserved.
  destruct (Z.eqb_spec hdr (Z.land h state_header_mask)) as [Htag|Htag]; simpl.
  2: { intros [= <- <-]. left. auto. }
  destruct (Z.leb_spec bit_bound (h mod 2 ^ 26)) as [Hfull|Hfree].
  { intros [= <- <-]. right. left. auto. }
  intros Hrun. right. right.
  destruct (claim_loop_done retry _ _ P (Hkeep Hfree) fuel bit r buf'
              (Hinit Hfree) Hrun) as (b & w & HPb & Hl & Hb & -> & ->).
  pose proof (HP b HPb) as Hrange.
  pose proof (Z.mod_pos_bound h (2 ^ 26) ltac:(lia)) as Hu.
  rewrite word_index_succ in Hl |- * by lia. simpl in Hl |- *.
  exists b, w. repeat split; trivial.
  rewrite !int_of_u32_small by lia. reflexivity.
Qed.

(** The state an acquire leaves after claiming bit [b]. *)
Lemma claimed_state h ws b w :
  is_u32 h -> Forall is_u32 ws -> h mod 2 ^ 26 < 2 ^ 25 -> 0 <= b ->
  ws !! Z.to_nat (b / 32) = Some w -> Z.testbit w (b mod 32) = false ->
  let buf' := (h + 1) :: <[Z.to_nat (b / 32) := Z.lor w (2 ^ (b mod 32))]> ws in
  wf_buffer buf' /\
  used_count buf' = used_count (h :: ws) + 1 /\
  bitmap_popcount buf' = bitmap_popcount (h :: ws) + 1 /\
  tag_of buf' = tag_of (h :: ws) /\
  bit_is_set (h :: ws) b = false /\ bit_is_set buf' b = true.
Proof.
  intros Hh Hws Hu Hb Hl Hfree. cbv zeta.
  destruct (header_succ h Hh ltac:(lia)) as (Hw & Hm & Hd).
  pose proof (mod32_range b) as Hk.
  assert (Hwu : is_u32 w) by (eapply Forall_lookup_1; eauto).
  assert (Hlen : (Z.to_nat (b / 32) < length ws)%nat)
    by (eapply lookup_lt_Some; eauto).
  repeat split.
  - discriminate.
  - constructor.
    + rewrite <- Hw. apply is_u32_wrap.
    + apply Forall_insert; [assumption|]. now apply is_u32_lor.
  - rewrite !used_count_cons. exact Hm.
  - unfold bitmap_popcount. simpl. rewrite (sum_popcount_insert ws _ w) by assumption.
    unfold popcount32 at 2.
    rewrite (count_bits_flip 32 w (Z.lor w (2 ^ (b mod 32))) (b mod 32)).
    + unfold popcount32. lia.
    + simpl Z.of_nat. lia.
    + assumption.
    + rewrite Z.lor_spec, testbit_pow2, Z.eqb_refl by lia. apply orb_true_r.
    + intros i Hi Hne. rewrite Z.lor_spec, testbit_pow2 by lia.
      destruct (Z.eqb_spec (b mod 32) i); [lia|]. apply orb_false_r.
  - unfold tag_of, header. simpl. now apply tag_div.
  - unfold bit_is_set. rewrite word_index_eq, word_index_succ, land_low5 by lia.
    simpl. now rewrite Hl.
  - unfold bit_is_set. rewrite word_index_eq, word_index_succ, land_low5 by lia.
    simpl. rewrite list_lookup_insert_eq by assumption.
    rewrite Z.lor_spec, testbit_pow2, Z.eqb_refl by lia. apply orb_true_r.
Qed.

(** ** release and set, case by case *)

Lemma release_unfold h ws bit hdr :
  is_u32 h -> Forall is_u32 ws -> 0 <= bit ->
  release (h :: ws) bit hdr =
  if negb (hdr =? Z.land h state_header_mask) then Done (-2) (h :: ws)
  else match ws !! Z.to_nat (bit / 32) with
       | None => OutOfBounds
       | Some w =>
         if Z.testbit w (bit mod 32)
         then Done (h mod 2 ^ 26 - 1)
                   (wrap32 (h - 1) ::
                    <[Z.to_nat (bit / 32) := Z.land w (not32 (2 ^ (bit mod 32)))]> ws)
         else Done (-1) (h :: ws)
       end.
Proof.
  intros Hh Hws Hb. unfold release. simpl.
  rewrite (Z.land_comm state_header_mask).
  destruct (negb (hdr =? Z.land h state_header_mask)); [reflexivity|].
  cbv zeta. unfold atomic_fetch_and, atomic_fetch_sub.
  rewrite word_index_eq, mask_pow2, word_index_succ by assumption. simpl.
  destruct (ws !! Z.to_nat (bit / 32)) as [w|] eqn:Hl; [|reflexivity].
  assert (Hwu : is_u32 w) by (eapply Forall_lookup_1; eauto).
  pose proof (mod32_range bit) as Hk.
  rewrite land_pow2_eqb by lia.
  destruct (Z.testbit w (bit mod 32)) eqn:Ht; simpl.
  - now rewrite count_after_spec.
  - rewrite land_not32_id by (trivial; lia). now rewrite list_insert_id.
Qed.

Lemma set_unfold h ws bit hdr :
  is_u32 h -> Forall is_u32 ws -> 0 <= bit ->
  set (h :: ws) bit hdr =
  if negb (hdr =? Z.land h state_header_mask) then Done (-2) (h :: ws)
  else match ws !! Z.to_nat (bit / 32) with
       | None => OutOfBounds
       | Some w =>
         if Z.testbit w (bit mod 32)
         then Done (h mod 2 ^ 26 - 1) (wrap32 (h - 1) :: ws)
         else Done (-1)
                   (h :: <[Z.to_nat (bit / 32) := Z.lor w (2 ^ (bit mod 32))]> ws)
       end.
Proof.
  intros Hh Hws Hb. unfold set. simpl.
  rewrite (Z.land_comm state_header_mask).
  destruct (negb (hdr =? Z.land h state_header_mask)); [reflexivity|].
  cbv zeta. unfold atomic_fetch_or, atomic_fetch_sub.
  rewrite word_index_eq, mask_pow2, word_index_succ by assumption. simpl.
  destruct (ws !! Z.to_nat (bit / 32)) as [w|] eqn:Hl; [|reflexivity].
  pose proof (mod32_range bit) as Hk.
  rewrite land_pow2_eqb by lia.
  destruct (Z.testbit w (bit mod 32)) eqn:Ht; simpl.
  - rewrite lor_pow2_id by (trivial; lia). rewrite list_insert_id by assumption.
    now rewrite count_after_spec.
  - reflexivity.
Qed.

(** ** Where the retry step can lead *)

Ltac retry_cases w :=
  unfold retry_bounded, retry_lg2, next_base;
  pose proof (countr_one_range w);
  repeat match goal with
         | |- context [Z.eqb ?a ?b] => destruct (Z.eqb_spec a b)
         | |- context [Z.leb ?a ?b] => destruct (Z.leb_spec a b)
         | |- context [Z.ltb ?a ?b] => destruct (Z.ltb_spec a b)
         end.

(** Every bit the loops try stays far below [2^31]: the conversion of the
    result to [int] changes nothing. *)
Lemma retry_bounded_small bit_bound b w :
  is_u32 w -> 0 <= bit_bound <= 2 ^ 25 -> 0 <= b < 2 ^ 26 ->
  0 <= retry_bounded bit_bound (bit_bound / 32) b w < 2 ^ 26.
Proof.
  intros Hw Hbb Hb. change (2 ^ 25) with 33554432 in *.
  change (2 ^ 26) with 67108864 in *.
  retry_cases w; try pose proof (countr_one_lt w Hw ltac:(assumption));
    Z.div_mod_to_equations; lia.
Qed.

Lemma retry_lg2_small bit_bound b w :
  is_u32 w -> 0 <= bit_bound <= 2 ^ 25 -> 0 <= b < 2 ^ 26 ->
  0 <= retry_lg2 (bit_bound / 32) b w < 2 ^ 26.
Proof.
  intros Hw Hbb Hb. change (2 ^ 25) with 33554432 in *.
  change (2 ^ 26) with 67108864 in *.
  retry_cases w; try pose proof (countr_one_lt w Hw ltac:(assumption));
    Z.div_mod_to_equations; lia.
Qed.

(** With fewer 1 bits in the bitmap than the capacity, [acquire_bounded]
    never leaves [0, bit_bound). *)
Lemma retry_bounded_in_range ws bit_bound b w :
  Forall is_u32 ws -> sum_popcount ws < bit_bound ->
  0 <= b < bit_bound ->
  ws !! Z.to_nat (b / 32) = Some w ->
  0 <= retry_bounded bit_bound (bit_bound / 32) b w < bit_bound.
Proof.
  intros Hws Hsum Hb Hl.
  assert (Hw : is_u32 w) by (eapply Forall_lookup_1; eauto).
  pose proof (sum_popcount_lookup ws _ w Hl) as Hle.
  pose proof (countr_one_le_popcount w) as Hc.
  retry_cases w; subst; try rewrite popcount32_full in Hle;
    try pose proof (countr_one_lt w Hw ltac:(assumption));
    Z.div_mod_to_equations; lia.
Qed.

(** On an aligned capacity the two retry steps agree, and neither leaves
    [0, max bit_bound 32). *)
Lemma retry_aligned_eq bit_bound b w :
  aligned bit_bound -> is_u32 w -> 0 <= b < Z.max bit_bound 32 ->
  retry_lg2 (bit_bound / 32) b w = retry_bounded bit_bound (bit_bound / 32) b w.
Proof.
  intros Hal Hw Hb.
  retry_cases w; trivial; pose proof (countr_one_lt w Hw ltac:(assumption));
    destruct Hal; Z.div_mod_to_equations; lia.
Qed.

Lemma retry_aligned_range bit_bound b w :
  aligned bit_bound -> is_u32 w -> 0 <= b < Z.max bit_bound 32 ->
  0 <= retry_bounded bit_bound (bit_bound / 32) b w < Z.max bit_bound 32.
Proof.
  intros Hal Hw Hb.
  retry_cases w; try pose proof (countr_one_lt w Hw ltac:(assumption));
    destruct Hal; Z.div_mod_to_equations; lia.
Qed.

Lemma aligned_pow2 lg2 : 0 <= lg2 -> aligned (2 ^ lg2).
Proof.
  intros Hl. destruct (Z.lt_ge_cases lg2 5).
  - right. assert (2 ^ lg2 <= 2 ^ 4) by (apply Z.pow_le_mono_r; lia). lia.
  - left. replace lg2 with (5 + (lg2 - 5)) by lia.
    rewrite Z.pow_add_r by lia. change (2 ^ 5) with 32.
    rewrite Z.mul_comm. apply Z.mod_mul. lia.
Qed.

(** On an aligned capacity and a hint below it, the loop of
    [acquire_bounded_lg2] and the loop of [acquire_bounded] are the same
    computation. *)
Lemma reserved_aligned fuel h ws bit_bound bit hdr :
  aligned bit_bound -> Forall is_u32 ws -> 0 <= bit < bit_bound ->
  reserved (retry_lg2 (bit_bound / 32)) fuel h ws bit_bound bit hdr
  = reserved (retry_bounded bit_bound (bit_bound / 32)) fuel h ws
             bit_bound bit hdr.
Proof.
  intros Hal Hws Hbit. unfold reserved.
  destruct (negb _); [reflexivity|].
  destruct (bit_bound <=? h mod 2 ^ 26); [reflexivity|].
  apply (claim_loop_ext _ _ _ (fun b => 0 <= b < Z.max bit_bound 32)).
  - intros b w Hb [Hl _]. apply retry_aligned_range; trivial.
    rewrite word_index_succ in Hl by lia. simpl in Hl.
    eapply Forall_lookup_1; eauto.
  - intros b w Hb [Hl _]. apply retry_aligned_eq; trivial.
    rewrite word_index_succ in Hl by lia. simpl in Hl.
    eapply Forall_lookup_1; eauto.
  - lia.
Qed.

Lemma acquire_lg2_as_bounded fuel buf lg2 bit hdr :
  wf_buffer buf -> 0 <= lg2 <= 25 -> 0 <= bit < 2 ^ lg2 ->
  acquire_bounded_lg2 fuel buf lg2 bit hdr
  = acquire_bounded fuel buf (2 ^ lg2) bit hdr.
Proof.
  intros Hwf Hl Hbit.
  destruct (wf_buffer_cons buf Hwf) as (h & ws & -> & Hh & Hws).
  rewrite acquire_bounded_lg2_unfold, acquire_bounded_unfold by assumption.
  assert (Hp : 2 ^ lg2 <= 2 ^ 25) by (apply Z.pow_le_mono_r; lia).
  replace (max_bit_count <? 2 ^ lg2) with false
    by (symmetry; apply Z.ltb_ge; exact Hp).
  replace (2 ^ lg2 <? bit) with false by (symmetry; apply Z.ltb_ge; lia).
  replace (2 ^ lg2 <=? bit) with false by (symmetry; apply Z.leb_gt; lia).
  rewrite orb_false_l, !orb_false_r.
  destruct (negb _); [reflexivity|].
  apply reserved_aligned; trivial. apply aligned_pow2. lia.
Qed.

(** ** The results of the two acquire functions *)

Lemma reserved_shape retry fuel h ws bit_bound bit hdr r buf' :
  Forall is_u32 ws -> 0 <= bit_bound <= 2 ^ 25 -> 0 <= bit < 2 ^ 26 ->
  Z.land hdr (not32 state_header_mask) = 0 ->
  (forall b w, is_u32 w -> 0 <= b < 2 ^ 26 -> 0 <= retry b w < 2 ^ 26) ->
  reserved retry fuel h ws bit_bound bit hdr = Done r buf' ->
  acquire_shape bit_bound h ws hdr r buf'.
Proof.
  intros Hws Hbb Hbit Hhdr Hsmall Hrun.
  destruct (reserved_cases (fun b => 0 <= b < 2 ^ 26) retry fuel h ws
              bit_bound bit hdr r buf') as [H|[H|H]]; trivial; try lia.
  - intros _ b w Hb [Hl _]. apply Hsmall; trivial.
    rewrite word_index_succ in Hl by lia. simpl in Hl.
    eapply Forall_lookup_1; eauto.
  - right. left. tauto.
  - right. right. left. tauto.
  - destruct H as (b & w & Hb & Htag & Hu & Hl & Hfree & -> & ->).
    right. right. right. exists b, w. repeat split; trivial; lia.
Qed.

Lemma acquire_bounded_shape fuel h ws bit_bound bit hdr r buf' :
  is_u32 h -> Forall is_u32 ws -> is_u32 bit ->
  acquire_bounded fuel (h :: ws) bit_bound bit hdr = Done r buf' ->
  acquire_shape bit_bound h ws hdr r buf'.
Proof.
  intros Hh Hws Hbit. rewrite acquire_bounded_unfold by assumption.
  destruct (_ || _ || _) eqn:Hargs.
  { intros [= <- <-]. left. auto. }
  apply orb_false_elim in Hargs as [Hargs Hhint].
  apply orb_false_elim in Hargs as [Hmax Hhdr].
  apply Z.ltb_ge in Hmax. apply Z.leb_gt in Hhint.
  apply negb_false_iff, Z.eqb_eq in Hhdr.
  change max_bit_count with (2 ^ 25) in Hmax. destruct Hbit as [Hb0 _].
  apply reserved_shape; trivial; try lia.
  intros b w Hw Hb. apply retry_bounded_small; trivial. lia.
Qed.

Lemma acquire_bounded_lg2_shape fuel h ws lg2 bit hdr r buf' :
  is_u32 h -> Forall is_u32 ws -> is_u32 bit -> 0 <= lg2 ->
  acquire_bounded_lg2 fuel (h :: ws) lg2 bit hdr = Done r buf' ->
  acquire_shape (2 ^ lg2) h ws hdr r buf'.
Proof.
  intros Hh Hws Hbit Hl.
  destruct (Z.lt_ge_cases 25 lg2) as [Hbig|Hsmall].
  { rewrite acquire_bounded_lg2_too_large by assumption.
    intros [= <- <-]. left. auto. }
  rewrite acquire_bounded_lg2_unfold by (trivial; lia).
  destruct (_ || _) eqn:Hargs.
  { intros [= <- <-]. left. auto. }
  apply orb_false_elim in Hargs as [Hhdr Hhint].
  apply Z.ltb_ge in Hhint. apply negb_false_iff, Z.eqb_eq in Hhdr.
  assert (Hp : 0 < 2 ^ lg2 <= 2 ^ 25)
    by (split; [apply Z.pow_pos_nonneg; lia | apply Z.pow_le_mono_r; lia]).
  destruct Hbit as [Hb0 _].
  apply reserved_shape; trivial; try lia.
  intros b w Hw Hb. apply retry_lg2_small; trivial. lia.
Qed.

(** The state [release] leaves after clearing bit [b]. *)
Lemma released_state h ws b w :
  is_u32 h -> Forall is_u32 ws -> 1 <= h mod 2 ^ 26 -> 0 <= b ->
  ws !! Z.to_nat (b / 32) = Some w -> Z.testbit w (b mod 32) = true ->
  let ws' := <[Z.to_nat (b / 32) := Z.land w (not32 (2 ^ (b mod 32)))]> ws in
  wrap32 (h - 1) = h - 1 /\
  wf_buffer ((h - 1) :: ws') /\
  used_count ((h - 1) :: ws') = used_count (h :: ws) - 1 /\
  bitmap_popcount ((h - 1) :: ws') = bitmap_popcount (h :: ws) - 1 /\
  tag_of ((h - 1) :: ws') = tag_of (h :: ws) /\
  ws' !! Z.to_nat (b / 32) = Some (Z.land w (not32 (2 ^ (b mod 32)))) /\
  Z.testbit (Z.land w (not32 (2 ^ (b mod 32)))) (b mod 32) = false.
Proof.
  intros Hh Hws Hu Hb Hl Hset. cbv zeta.
  destruct (header_pred h Hh Hu) as (Hw & Hm & Hd).
  pose proof (mod32_range b) as Hk.
  assert (Hwu : is_u32 w) by (eapply Forall_lookup_1; eauto).
  assert (Hlen : (Z.to_nat (b / 32) < length ws)%nat)
    by (eapply lookup_lt_Some; eauto).
  assert (Hclr : Z.testbit (Z.land w (not32 (2 ^ (b mod 32)))) (b mod 32) = false).
  { rewrite testbit_land_not32, Z.eqb_refl by (trivial; lia). apply andb_false_r. }
  repeat split; trivial.
  - discriminate.
  - constructor.
    + rewrite <- Hw. apply is_u32_wrap.
    + apply Forall_insert; [assumption|]. now apply is_u32_land.
  - rewrite !used_count_cons. exact Hm.
  - unfold bitmap_popcount. simpl. rewrite (sum_popcount_insert ws _ w) by assumption.
    unfold popcount32 at 1.
    rewrite (count_bits_flip 32 (Z.land w (not32 (2 ^ (b mod 32)))) w (b mod 32)).
    + unfold popcount32. lia.
    + simpl Z.of_nat. lia.
    + assumption.
    + assumption.
    + intros i Hi Hne. rewrite testbit_land_not32 by (trivial; lia).
      destruct (Z.eqb_spec (b mod 32) i); [lia|]. simpl.
      now rewrite andb_true_r.
  - unfold tag_of, header. simpl. now apply tag_div.
  - now apply list_lookup_insert_eq.
Qed.

(** * The claims *)

(** ** set *)

(** C1.  The claim: with a matching tag and an in-range bit, [set] fails with
    -1 when the bit was already 1 and otherwise succeeds, returning the new
    used-count.  The code tests the fetched word the way [release] does:
    on the zero-initialised buffer of capacity 8, [set] of the free bit 3
    sets the bit, leaves the count alone and returns -1; on a buffer where
    bit 3 is already 1 and the count is 1, it decrements the count and
    returns 0. *)
Theorem set_fails_on_free_bit :
  set (fresh 8) 3 0 = Done (-1) [0; 8] /\
  set [1; 8] 3 0 = Done 0 [0; 8].
Proof. split; vm_compute; reflexivity. Qed.

(** ** The quiescent invariant *)

Lemma acquire_shape_quiescent bit_bound h ws hdr r buf' :
  is_u32 h -> Forall is_u32 ws ->
  quiescent bit_bound (h :: ws) ->
  acquire_shape bit_bound h ws hdr r buf' ->
  wf_buffer buf' /\ quiescent bit_bound buf'.
Proof.
  intros Hh Hws Hq [[_ ->]|[[_ ->]|[[_ ->]|Hok]]];
    try (split; [now apply wf_buffer_intro | assumption]).
  destruct Hok as (b & w & Hb & Hbb & _ & _ & Hu & Hl & Hfree & _ & ->).
  destruct (claimed_state h ws b w) as (Hwf & Hused & Hpop & _); trivial; try lia.
  split; [exact Hwf|]. destruct Hq as [Heq Hrange].
  pose proof (used_count_cons h ws) as Hc.
  unfold quiescent. rewrite Hused, Hpop. lia.
Qed.

(** C3.  From a buffer whose used-count equals the popcount of its bitmap
    and lies in [0, capacity], every call of [acquire_bounded],
    [acquire_bounded_lg2] (capacity [2 ^ lg2]) or [release] that returns,
    whatever it returns, leaves a buffer with the same property. *)
Theorem quiescent_preserved capacity buf :
  wf_buffer buf -> quiescent capacity buf ->
  (forall fuel bit hdr r buf',
     is_u32 bit ->
     acquire_bounded fuel buf capacity bit hdr = Done r buf' ->
     wf_buffer buf' /\ quiescent capacity buf') /\
  (forall fuel lg2 bit hdr r buf',
     is_u32 bit -> 0 <= lg2 -> capacity = 2 ^ lg2 ->
     acquire_bounded_lg2 fuel buf lg2 bit hdr = Done r buf' ->
     wf_buffer buf' /\ quiescent capacity buf') /\
  (forall bit hdr r buf',
     is_u32 bit ->
     release buf bit hdr = Done r buf' ->
     wf_buffer buf' /\ quiescent capacity buf').
Proof.
  intros Hwf Hq.
  destruct (wf_buffer_cons buf Hwf) as (h & ws & -> & Hh & Hws).
  split; [|split].
  - intros fuel bit hdr r buf' Hbit Hrun.
    apply (acquire_shape_quiescent capacity h ws hdr r buf' Hh Hws Hq).
    now apply (acquire_bounded_shape fuel h ws capacity bit hdr).
  - intros fuel lg2 bit hdr r buf' Hbit Hl -> Hrun.
    apply (acquire_shape_quiescent (2 ^ lg2) h ws hdr r buf' Hh Hws Hq).
    now apply (acquire_bounded_lg2_shape fuel h ws lg2 bit hdr).
  - intros bit hdr r buf' [Hbit _].
    rewrite release_unfold by assumption.
    destruct (negb _); [intros [= <- <-]; auto|].
    destruct (ws !! Z.to_nat (bit / 32)) as [w|] eqn:Hl; [|discriminate].
    destruct (Z.testbit w (bit mod 32)) eqn:Hset; [|intros [= <- <-]; auto].
    intros [= <- <-].
    destruct Hq as [Heq Hrange].
    pose proof (used_count_cons h ws) as Hc.
    assert (Hpos : 1 <= h mod 2 ^ 26).
    { pose proof (popcount32_pos w (bit mod 32) (mod32_range bit) Hset).
      pose proof (sum_popcount_lookup ws _ w Hl).
      unfold bitmap_popcount in Heq. simpl in Heq. lia. }
    destruct (released_state h ws bit w) as (-> & Hwf' & Hused & Hpop & _); trivial.
    split; [exact Hwf'|]. unfold quiescent. rewrite Hused, Hpop. lia.
Qed.

Lemma quiescent_preserved_witness :
  wf_buffer [2; 5] /\ quiescent 8 [2; 5] /\
  acquire_bounded 3 [2; 5] 8 0 0 = Done (1, 3) [3; 7] /\
  wf_buffer [3; 7] /\ quiescent 8 [3; 7].
Proof.
  assert (Hwf : wf_buffer [2; 5]).
  { split; [discriminate|]. repeat constructor; unfold u32_max; lia. }
  assert (Hq : quiescent 8 [2; 5]).
  { split; [reflexivity|]. vm_compute. split; discriminate. }
  assert (Hrun : acquire_bounded 3 [2; 5] 8 0 0 = Done (1, 3) [3; 7])
    by (vm_compute; reflexivity).
  assert (Hbit : is_u32 0) by (unfold is_u32, u32_max; lia).
  split; [exact Hwf|]. split; [exact Hq|]. split; [exact Hrun|].
  exact (proj1 (quiescent_preserved 8 [2; 5] Hwf Hq)
               3%nat 0 0 (1, 3) [3; 7] Hbit Hrun).
Defined.

(** ** Tag isolation *)

Lemma u32_small z : 0 <= z < 2 ^ 32 -> is_u32 z.
Proof. unfold is_u32, u32_max. lia. Qed.

(** C5, as stated, fails for acquire: the argument check comes before the
    tag check.  On a buffer with tag 5, an acquire expecting tag 3 with
    capacity 8 and hint 8 returns (-3, -3), not (-2, -2). *)
Lemma tag_mismatch_counterexample :
  Z.land 201326592 (not32 state_header_mask) = 0 /\
  201326592 <> tag_of [335544322; 3] /\
  (forall fuel,
     acquire_bounded fuel [335544322; 3] 8 8 201326592
     = Done (-3, -3) [335544322; 3]) /\
  acquire_bounded 0 [335544322; 3] 8 8 201326592
  <> Done (-2, -2) [335544322; 3].
Proof.
  split; [reflexivity|]. split; [vm_compute; discriminate|].
  split; [intros fuel; reflexivity | discriminate].
Qed.

(** C5, amended.  With an expected tag that fits the tag field and differs
    from the tag bits of the header: [acquire_bounded] called with a
    capacity of at most [max_bit_count] and a hint below the capacity, and
    [acquire_bounded_lg2] called with a logarithm of at most
    [max_bit_count_lg2] and a hint below [2 ^ bit_bound_lg2], return
    (-2, -2); [release] and [set] return -2; each leaves the buffer exactly
    as it was. *)
Theorem tag_mismatch_isolated buf hdr :
  wf_buffer buf ->
  Z.land hdr (not32 state_header_mask) = 0 ->
  hdr <> tag_of buf ->
  (forall fuel capacity bit,
     capacity <= max_bit_count -> bit < capacity ->
     acquire_bounded fuel buf capacity bit hdr = Done (-2, -2) buf) /\
  (forall fuel lg2 bit,
     0 <= lg2 <= max_bit_count_lg2 -> bit < 2 ^ lg2 ->
     acquire_bounded_lg2 fuel buf lg2 bit hdr = Done (-2, -2) buf) /\
  (forall bit, release buf bit hdr = Done (-2) buf) /\
  (forall bit, set buf bit hdr = Done (-2) buf).
Proof.
  intros Hwf Hfit Hne.
  destruct (wf_buffer_cons buf Hwf) as (h & ws & -> & Hh & Hws).
  unfold tag_of, header in Hne. simpl in Hne.
  assert (Hmis : negb (hdr =? Z.land h state_header_mask) = true).
  { apply negb_true_iff, Z.eqb_neq. exact Hne. }
  repeat split.
  - intros fuel capacity bit Hcap Hbit.
    rewrite acquire_bounded_unfold by assumption.
    replace (max_bit_count <? capacity) with false
      by (symmetry; apply Z.ltb_ge; lia).
    replace (capacity <=? bit) with false by (symmetry; apply Z.leb_gt; lia).
    rewrite Hfit. simpl. unfold reserved. now rewrite Hmis.
  - intros fuel lg2 bit Hl Hbit. unfold max_bit_count_lg2 in Hl.
    rewrite acquire_bounded_lg2_unfold by assumption.
    replace (2 ^ lg2 <? bit) with false by (symmetry; apply Z.ltb_ge; lia).
    rewrite Hfit. simpl. unfold reserved. now rewrite Hmis.
  - intros bit. unfold release. simpl.
    rewrite (Z.land_comm state_header_mask). now rewrite Hmis.
  - intros bit. unfold set. simpl.
    rewrite (Z.land_comm state_header_mask). now rewrite Hmis.
Qed.

(** A header with tag 5 and two claimed bits, asked for tag 3. *)
Lemma tag_mismatch_isolated_witness :
  acquire_bounded 0 [335544322; 3] 8 0 201326592 = Done (-2, -2) [335544322; 3] /\
  acquire_bounded_lg2 0 [335544322; 3] 3 0 201326592 = Done (-2, -2) [335544322; 3] /\
  release [335544322; 3] 0 201326592 = Done (-2) [335544322; 3] /\
  set [335544322; 3] 2 201326592 = Done (-2) [335544322; 3].
Proof.
  assert (Hwf : wf_buffer [335544322; 3]).
  { split; [discriminate|]. repeat constructor; unfold u32_max; lia. }
  assert (Hfit : Z.land 201326592 (not32 state_header_mask) = 0) by reflexivity.
  assert (Hne : 201326592 <> tag_of [335544322; 3]) by (vm_compute; discriminate).
  destruct (tag_mismatch_isolated [335544322; 3] 201326592 Hwf Hfit Hne)
    as (Hacq & Hlg2 & Hrel & Hset).
  split; [|split; [|split]].
  - apply Hacq; [vm_compute; discriminate | lia].
  - apply Hlg2; [unfold max_bit_count_lg2; lia | lia].
  - apply Hrel.
  - apply Hset.
Defined.

(** ** Releasing twice *)

(** C6, as stated, fails where the used-count is 0 while the bit is 1 (the
    state [set] of bit 3 leaves on a zero-initialised buffer): the first
    release borrows from the tag field. *)
Lemma release_twice_counterexample :
  set (fresh 8) 3 0 = Done (-1) [0; 8] /\
  bit_is_set [0; 8] 3 = true /\ tag_of [0; 8] = 0 /\
  release [0; 8] 3 0 = Done (-1) [u32_max; 0] /\
  release [u32_max; 0] 3 0 = Done (-2) [u32_max; 0] /\
  ~ release_twice_ok [0; 8] 3 0.
Proof.
  do 5 (split; [vm_compute; reflexivity|]).
  intros (buf1 & H1 & _ & H2).
  assert (E : release [0; 8] 3 0 = Done (-1) [u32_max; 0]) by (vm_compute; reflexivity).
  rewrite E in H1. injection H1 as <-.
  assert (E2 : release [u32_max; 0] 3 0 = Done (-2) [u32_max; 0])
    by (vm_compute; reflexivity).
  rewrite E2 in H2. discriminate.
Qed.

(** C6, amended.  In a buffer where bit [b] is 1, the tag matches and the
    used-count is at least 1, the first [release] of [b] returns the
    decremented used-count, and a second one returns -1 and leaves the
    buffer, count and bitmap, as the first left it. *)
Theorem release_twice buf b hdr :
  wf_buffer buf -> is_u32 b ->
  bit_is_set buf b = true -> hdr = tag_of buf -> 1 <= used_count buf ->
  release_twice_ok buf b hdr.
Proof.
  intros Hwf [Hb _] Hset -> Hpos.
  destruct (wf_buffer_cons buf Hwf) as (h & ws & -> & Hh & Hws).
  unfold bit_is_set in Hset.
  rewrite word_index_eq, word_index_succ, land_low5 in Hset by assumption.
  simpl in Hset.
  destruct (ws !! Z.to_nat (b / 32)) as [w|] eqn:Hl; [|discriminate].
  rewrite used_count_cons in Hpos.
  destruct (released_state h ws b w)
    as (Hw & Hwf' & Hused & _ & Htag & Hl' & Hclr); trivial.
  destruct (wf_buffer_cons _ Hwf') as (h' & ws' & E & Hh' & Hws').
  injection E as <- <-.
  unfold release_twice_ok. eexists. split; [|split].
  - rewrite release_unfold by assumption.
    unfold tag_of, header. simpl. rewrite Z.eqb_refl. simpl.
    rewrite Hl, Hset, Hw, used_count_cons. reflexivity.
  - exact Hused.
  - rewrite release_unfold by assumption.
    unfold tag_of, header in Htag |- *. simpl in Htag |- *.
    rewrite Htag, Z.eqb_refl. simpl. now rewrite Hl', Hclr.
Qed.

Lemma release_twice_witness :
  release [2; 6] 1 0 = Done 1 [1; 4] /\
  release [1; 4] 1 0 = Done (-1) [1; 4].
Proof.
  assert (Hwf : wf_buffer [2; 6]).
  { split; [discriminate|]. repeat constructor; unfold u32_max; lia. }
  assert (Hb : is_u32 1) by (unfold is_u32, u32_max; lia).
  assert (Hset : bit_is_set [2; 6] 1 = true) by reflexivity.
  assert (Htag : 0 = tag_of [2; 6]) by reflexivity.
  assert (Hpos : 1 <= used_count [2; 6]) by (vm_compute; discriminate).
  destruct (release_twice [2; 6] 1 0 Hwf Hb Hset Htag Hpos)
    as (buf1 & H1 & _ & H2).
  assert (E : release [2; 6] 1 0 = Done 1 [1; 4]) by (vm_compute; reflexivity).
  rewrite E in H1. injection H1 as <-.
  split; [exact E | exact H2].
Defined.

(** ** Acquire, then release *)

(** Undoing a claim: [release] of the bit an acquire has just set restores
    the buffer the acquire started from and returns its used-count. *)
Lemma release_after_claim h ws hdr b w :
  is_u32 h -> Forall is_u32 ws -> 0 <= b ->
  h mod 2 ^ 26 < 2 ^ 25 -> hdr = Z.land h state_header_mask ->
  ws !! Z.to_nat (b / 32) = Some w -> Z.testbit w (b mod 32) = false ->
  release ((h + 1) :: <[Z.to_nat (b / 32) := Z.lor w (2 ^ (b mod 32))]> ws) b hdr
  = Done (h mod 2 ^ 26) (h :: ws).
Proof.
  intros Hh Hws Hb Hu -> Hl Hfree.
  destruct (header_succ h Hh ltac:(lia)) as (Hw & Hm & Hd).
  pose proof (mod32_range b) as Hk.
  assert (Hwu : is_u32 w) by (eapply Forall_lookup_1; eauto).
  assert (Hlen : (Z.to_nat (b / 32) < length ws)%nat)
    by (eapply lookup_lt_Some; eauto).
  rewrite release_unfold; trivial.
  - rewrite (tag_div (h + 1) h Hd), Z.eqb_refl. simpl.
    rewrite list_lookup_insert_eq by assumption.
    rewrite Z.lor_spec, testbit_pow2, Z.eqb_refl, orb_true_r by lia.
    rewrite list_insert_insert_eq, land_not32_lor by (trivial; lia).
    rewrite list_insert_id by assumption.
    rewrite Hm. replace (h + 1 - 1) with h by lia.
    replace (h mod 2 ^ 26 + 1 - 1) with (h mod 2 ^ 26) by lia.
    unfold wrap32. rewrite (Z.mod_small h (2 ^ 32)); [reflexivity|].
    unfold is_u32, u32_max in Hh. lia.
  - rewrite <- Hw. apply is_u32_wrap.
  - apply Forall_insert; [assumption|]. now apply is_u32_lor.
Qed.

(** A free hint is claimed at the first try. *)
Lemma reserved_free_hint retry fuel h ws bit_bound b hdr w :
  0 <= b < 2 ^ 26 -> hdr = Z.land h state_header_mask ->
  h mod 2 ^ 26 < bit_bound -> bit_bound <= 2 ^ 25 ->
  ws !! Z.to_nat (b / 32) = Some w -> Z.testbit w (b mod 32) = false ->
  reserved retry (S fuel) h ws bit_bound b hdr
  = Done (b, h mod 2 ^ 26 + 1)
         ((h + 1) :: <[Z.to_nat (b / 32) := Z.lor w (2 ^ (b mod 32))]> ws).
Proof.
  intros Hb -> Hu Hbb Hl Hfree. unfold reserved.
  rewrite Z.eqb_refl. cbn [negb].
  replace (bit_bound <=? h mod 2 ^ 26) with false
    by (symmetry; apply Z.leb_gt; lia).
  pose proof (Z.mod_pos_bound h (2 ^ 26) ltac:(lia)).
  rewrite (claim_loop_hit retry ((h + 1) :: ws) (h mod 2 ^ 26) fuel b w).
  - rewrite word_index_succ, !int_of_u32_small by lia. reflexivity.
  - rewrite word_index_succ by lia. exact Hl.
  - exact Hfree.
Qed.

Lemma acquire_bounded_bad_hint fuel buf capacity bit hdr :
  capacity <= bit -> acquire_bounded fuel buf capacity bit hdr = Done (-3, -3) buf.
Proof.
  intros Hle. unfold acquire_bounded.
  replace (capacity <=? bit) with true by (symmetry; apply Z.leb_le; lia).
  now rewrite orb_true_r.
Qed.

Lemma acquire_bounded_lg2_bad_hint fuel buf lg2 bit hdr :
  0 <= lg2 -> 2 ^ lg2 < bit ->
  acquire_bounded_lg2 fuel buf lg2 bit hdr = Done (-3, -3) buf.
Proof.
  intros Hl Hlt.
  destruct (Z.lt_ge_cases 25 lg2) as [Hbig|Hsmall].
  { now apply acquire_bounded_lg2_too_large. }
  unfold acquire_bounded_lg2. cbv zeta. rewrite wrap_pow2 by lia.
  replace (2 ^ lg2 <? bit) with true by (symmetry; apply Z.ltb_lt; lia).
  now rewrite orb_true_r.
Qed.

(** C7, as stated, fails where more bits are 1 than the used-count tells
    (seven calls of [set] on a zero-initialised buffer lead there):
    [acquire_bounded] with capacity 7 returns bit 7, and an acquire with
    hint 7 is an argument error. *)
Lemma round_trip_counterexample :
  set_seq [0; 1; 2; 3; 4; 5; 6] (fresh 7) = Some [0; 127] /\
  acquire_bounded 2 [0; 127] 7 0 0 = Done (7, 1) [1; 255] /\
  release [1; 255] 7 0 = Done 0 [0; 127] /\
  (forall fuel, acquire_bounded fuel [0; 127] 7 7 0 = Done (-3, -3) [0; 127]) /\
  ~ round_trip_ok 7 [0; 127] [1; 255] 0 7.
Proof.
  do 3 (split; [vm_compute; reflexivity|]).
  assert (Hrej : forall fuel,
            acquire_bounded fuel [0; 127] 7 7 0 = Done (-3, -3) [0; 127]).
  { intros fuel. apply acquire_bounded_bad_hint. lia. }
  split; [exact Hrej|].
  intros (_ & fuel & n & Hacq). rewrite Hrej in Hacq. discriminate.
Qed.

(** C7, amended.  When an acquire takes the buffer [s] to [s'] and returns a
    bit [b] below the capacity, [release] of [b] with the same tag returns
    the used-count of [s] and restores [s] exactly, and an acquire on [s]
    with hint [b] returns [b] again, with the same count and the same final
    buffer. *)
Theorem acquire_release_round_trip s hdr b n s' :
  wf_buffer s -> 0 <= b ->
  (forall fuel capacity hint,
     is_u32 hint -> b < capacity ->
     acquire_bounded fuel s capacity hint hdr = Done (b, n) s' ->
     release s' b hdr = Done (used_count s) s /\
     forall k, acquire_bounded (S k) s capacity b hdr = Done (b, n) s') /\
  (forall fuel lg2 hint,
     is_u32 hint -> 0 <= lg2 -> b < 2 ^ lg2 ->
     acquire_bounded_lg2 fuel s lg2 hint hdr = Done (b, n) s' ->
     release s' b hdr = Done (used_count s) s /\
     forall k, acquire_bounded_lg2 (S k) s lg2 b hdr = Done (b, n) s').
Proof.
  intros Hwf Hb0.
  destruct (wf_buffer_cons s Hwf) as (h & ws & -> & Hh & Hws).
  assert (Hshape : forall bit_bound,
    acquire_shape bit_bound h ws hdr (b, n) s' ->
    exists w, 0 <= b < 2 ^ 26 /\ bit_bound <= 2 ^ 25 /\
      Z.land hdr (not32 state_header_mask) = 0 /\
      hdr = Z.land h state_header_mask /\ h mod 2 ^ 26 < bit_bound /\
      ws !! Z.to_nat (b / 32) = Some w /\ Z.testbit w (b mod 32) = false /\
      n = h mod 2 ^ 26 + 1 /\
      s' = (h + 1) :: <[Z.to_nat (b / 32) := Z.lor w (2 ^ (b mod 32))]> ws).
  { intros bb [[E _]|[[E _]|[[E _]|Hok]]]; try (injection E as -> _; lia).
    destruct Hok as (b' & w & Hb' & Hbb & Hfit & Htag & Hu & Hl & Hfree & E & ->).
    injection E as <- ->. exists w. repeat split; trivial; lia. }
  split.
  - intros fuel capacity hint Hhint Hlt Hrun.
    apply acquire_bounded_shape in Hrun; trivial.
    destruct (Hshape _ Hrun)
      as (w & Hb & Hbb & Hfit & Htag & Hu & Hl & Hfree & -> & ->).
    split.
    + rewrite used_count_cons. apply release_after_claim; trivial; lia.
    + intros k. rewrite acquire_bounded_unfold by assumption.
      replace (max_bit_count <? capacity) with false
        by (symmetry; apply Z.ltb_ge; exact Hbb).
      replace (capacity <=? b) with false by (symmetry; apply Z.leb_gt; lia).
      rewrite Hfit. simpl. now apply reserved_free_hint.
  - intros fuel lg2 hint Hhint Hl0 Hlt Hrun.
    apply acquire_bounded_lg2_shape in Hrun; trivial.
    destruct (Hshape _ Hrun)
      as (w & Hb & Hbb & Hfit & Htag & Hu & Hl & Hfree & -> & ->).
    assert (Hlg : lg2 <= 25).
    { destruct (Z.le_gt_cases lg2 25) as [|Hgt]; [assumption|].
      assert (2 ^ 26 <= 2 ^ lg2) by (apply Z.pow_le_mono_r; lia). lia. }
    split.
    + rewrite used_count_cons. apply release_after_claim; trivial; lia.
    + intros k. rewrite acquire_bounded_lg2_unfold by (trivial; lia).
      replace (2 ^ lg2 <? b) with false by (symmetry; apply Z.ltb_ge; lia).
      rewrite Hfit. simpl. now apply reserved_free_hint.
Qed.

Lemma acquire_release_round_trip_witness :
  acquire_bounded 3 [2; 5] 8 0 0 = Done (1, 3) [3; 7] /\
  release [3; 7] 1 0 = Done 2 [2; 5] /\
  acquire_bounded 1 [2; 5] 8 1 0 = Done (1, 3) [3; 7].
Proof.
  assert (Hwf : wf_buffer [2; 5]).
  { split; [discriminate|]. repeat constructor; unfold u32_max; lia. }
  assert (Hrun : acquire_bounded 3 [2; 5] 8 0 0 = Done (1, 3) [3; 7])
    by (vm_compute; reflexivity).
  assert (Hhint : is_u32 0) by (unfold is_u32, u32_max; lia).
  destruct (proj1 (acquire_release_round_trip [2; 5] 0 1 3 [3; 7] Hwf ltac:(lia))
              3%nat 8 0 Hhint ltac:(lia) Hrun) as [Hrel Hagain].
  split; [exact Hrun|]. split; [exact Hrel | exact (Hagain 0%nat)].
Defined.

(** ** Out-of-range hints *)

(** C8, as stated, fails in its second half: [acquire_bounded_lg2] with
    capacity 8 rejects the hint 9 with (-3, -3); it neither accepts nor
    wraps it. *)
Lemma lg2_hint_counterexample :
  2 ^ 3 <= 9 /\
  forall fuel, acquire_bounded_lg2 fuel (fresh 8) 3 9 0 = Done (-3, -3) (fresh 8).
Proof. split; [lia|]. intros fuel. reflexivity. Qed.

(** The one out-of-range hint [acquire_bounded_lg2] lets through: its guard
    is [bit_bound < bit] where the comment above it, and the guard of
    [acquire_bounded], have [<=]. *)
Lemma lg2_accepts_hint_at_bound :
  acquire_bounded_lg2 1 (fresh 8) 3 8 0 = Done (8, 1) [1; 256] /\
  acquire_bounded 1 (fresh 8) 8 8 0 = Done (-3, -3) (fresh 8).
Proof. split; vm_compute; reflexivity. Qed.

(** C8, amended.  [acquire_bounded] returns (-3, -3) for every hint with
    [capacity <= bit], and [acquire_bounded_lg2] returns (-3, -3) for every
    hint with [2 ^ bit_bound_lg2 < bit]; neither touches the buffer. *)
Theorem out_of_range_hint_rejected fuel buf bit hdr :
  (forall capacity,
     capacity <= bit ->
     acquire_bounded fuel buf capacity bit hdr = Done (-3, -3) buf) /\
  (forall lg2,
     0 <= lg2 -> 2 ^ lg2 < bit ->
     acquire_bounded_lg2 fuel buf lg2 bit hdr = Done (-3, -3) buf).
Proof.
  split.
  - intros capacity. apply acquire_bounded_bad_hint.
  - intros lg2. apply acquire_bounded_lg2_bad_hint.
Qed.

Lemma out_of_range_hint_rejected_witness :
  acquire_bounded 5 [3; 7] 8 8 0 = Done (-3, -3) [3; 7] /\
  acquire_bounded_lg2 5 [3; 7] 3 9 0 = Done (-3, -3) [3; 7].
Proof.
  split.
  - apply (proj1 (out_of_range_hint_rejected 5 [3; 7] 8 0) 8). lia.
  - apply (proj2 (out_of_range_hint_rejected 5 [3; 7] 9 0) 3); lia.
Defined.

(** ** The results of acquire *)

Lemma acquire_bounded_result_ok capacity buf fuel bit hdr r buf' :
  wf_buffer buf -> used_count buf = bitmap_popcount buf -> is_u32 bit ->
  acquire_bounded fuel buf capacity bit hdr = Done r buf' ->
  acquire_result_ok capacity buf buf' r.
Proof.
  intros Hwf Hq [Hbit _].
  destruct (wf_buffer_cons buf Hwf) as (h & ws & -> & Hh & Hws).
  rewrite used_count_cons in Hq. unfold bitmap_popcount in Hq. simpl in Hq.
  rewrite acquire_bounded_unfold by assumption.
  destruct (_ || _ || _) eqn:Hargs.
  { intros [= <- <-]. left. exists (-3). auto. }
  apply orb_false_elim in Hargs as [Hargs Hhint].
  apply orb_false_elim in Hargs as [Hmax _].
  apply Z.ltb_ge in Hmax. apply Z.leb_gt in Hhint.
  change max_bit_count with (2 ^ 25) in Hmax.
  intros Hrun.
  destruct (reserved_cases (fun b => 0 <= b < capacity)
              (retry_bounded capacity (capacity / 32)) fuel h ws
              capacity bit hdr r buf') as [H|[H|H]]; trivial.
  - intros b Hb. lia.
  - intros Hu b w Hb [Hl _]. rewrite word_index_succ in Hl by lia.
    simpl in Hl. apply (retry_bounded_in_range ws); trivial. lia.
  - intros _. lia.
  - left. exists (-2). intuition.
  - left. exists (-1). intuition.
  - destruct H as (b & w & Hb & Htag & Hu & Hl & Hfree & -> & ->).
    destruct (claimed_state h ws b w) as (_ & _ & _ & _ & Hclr & Hset);
      trivial; try lia.
    right. exists b. rewrite used_count_cons.
    pose proof (Z.mod_pos_bound h (2 ^ 26) ltac:(lia)).
    repeat split; trivial; lia.
Qed.

(** C2, as stated, fails where more bits are 1 than the used-count tells:
    seven calls of [set] on the zero-initialised buffer of capacity 7 leave
    the count at 0 with bits 0..6 set, and [acquire_bounded] then returns
    bit 7, which is not below the capacity. *)
Lemma acquire_result_counterexample :
  set_seq [0; 1; 2; 3; 4; 5; 6] (fresh 7) = Some [0; 127] /\
  acquire_bounded 2 [0; 127] 7 0 0 = Done (7, 1) [1; 255] /\
  ~ acquire_result_ok 7 [0; 127] [1; 255] (7, 1).
Proof.
  split; [vm_compute; reflexivity|]. split; [vm_compute; reflexivity|].
  intros [(c & E & Hc)|(b & E & Hb & _)].
  - injection E as <- E. lia.
  - injection E as <-. lia.
Qed.

(** C2, amended.  On a buffer whose used-count equals the popcount of its
    bitmap, every result of [acquire_bounded], and every result of
    [acquire_bounded_lg2] for a hint other than [2 ^ bit_bound_lg2], is an
    error pair (c, c) with c one of -1, -2, -3, or a pair
    (bit, prior used-count + 1) with [0 <= bit < capacity] whose bit was 0
    before the call and is 1 after it. *)
Theorem acquire_result_quiescent capacity buf :
  wf_buffer buf -> used_count buf = bitmap_popcount buf ->
  (forall fuel bit hdr r buf',
     is_u32 bit ->
     acquire_bounded fuel buf capacity bit hdr = Done r buf' ->
     acquire_result_ok capacity buf buf' r) /\
  (forall fuel lg2 bit hdr r buf',
     is_u32 bit -> 0 <= lg2 -> capacity = 2 ^ lg2 -> bit <> 2 ^ lg2 ->
     acquire_bounded_lg2 fuel buf lg2 bit hdr = Done r buf' ->
     acquire_result_ok capacity buf buf' r).
Proof.
  intros Hwf Hq. split.
  - intros fuel bit hdr r buf' Hbit.
    now apply acquire_bounded_result_ok.
  - intros fuel lg2 bit hdr r buf' Hbit Hl -> Hne.
    destruct (Z.lt_ge_cases 25 lg2) as [Hbig|Hsmall].
    { rewrite acquire_bounded_lg2_too_large by assumption.
      intros [= <- <-]. left. exists (-3). auto. }
    destruct (Z.lt_ge_cases (2 ^ lg2) bit) as [Hhigh|Hlow].
    { rewrite acquire_bounded_lg2_bad_hint by assumption.
      intros [= <- <-]. left. exists (-3). auto. }
    destruct Hbit as [Hb0 Hb1].
    rewrite acquire_lg2_as_bounded by (trivial; lia).
    apply acquire_bounded_result_ok; trivial. split; assumption.
Qed.

Lemma acquire_result_quiescent_witness :
  acquire_bounded 3 [2; 5] 8 0 0 = Done (1, 3) [3; 7] /\
  acquire_result_ok 8 [2; 5] [3; 7] (1, 3).
Proof.
  assert (Hwf : wf_buffer [2; 5]).
  { split; [discriminate|]. repeat constructor; unfold u32_max; lia. }
  assert (Hq : used_count [2; 5] = bitmap_popcount [2; 5]) by reflexivity.
  assert (Hrun : acquire_bounded 3 [2; 5] 8 0 0 = Done (1, 3) [3; 7])
    by (vm_compute; reflexivity).
  assert (Hbit : is_u32 0) by (unfold is_u32, u32_max; lia).
  split; [exact Hrun|].
  exact (proj1 (acquire_result_quiescent 8 [2; 5] Hwf Hq)
               3%nat 0 0 (1, 3) [3; 7] Hbit Hrun).
Defined.

(** ** The two acquire functions agree *)

(** C10.  For [bit_bound_lg2 <= 25] and a hint below [2 ^ bit_bound_lg2],
    [acquire_bounded_lg2] and [acquire_bounded] with capacity
    [2 ^ bit_bound_lg2] return the same pair and leave the same buffer, on
    every buffer and for every state header; with the same fuel they also
    stop, or fail to, together. *)
Theorem acquire_lg2_refines_bounded fuel buf lg2 bit hdr :
  wf_buffer buf -> 0 <= lg2 <= max_bit_count_lg2 -> 0 <= bit < 2 ^ lg2 ->
  acquire_bounded_lg2 fuel buf lg2 bit hdr
  = acquire_bounded fuel buf (2 ^ lg2) bit hdr.
Proof. intros Hwf Hl Hbit. now apply acquire_lg2_as_bounded. Qed.

Lemma acquire_lg2_refines_bounded_witness :
  acquire_bounded_lg2 4 [3; 4294967295; 7] 6 5 0 = Done (37, 4) [4; 4294967295; 39] /\
  acquire_bounded 4 [3; 4294967295; 7] (2 ^ 6) 5 0 = Done (37, 4) [4; 4294967295; 39].
Proof.
  assert (Hwf : wf_buffer [3; 4294967295; 7]).
  { split; [discriminate|]. repeat constructor; unfold u32_max; lia. }
  assert (Hl : 0 <= 6 <= max_bit_count_lg2) by (unfold max_bit_count_lg2; lia).
  assert (Hbit : 0 <= 5 < 2 ^ 6) by lia.
  assert (E : acquire_bounded_lg2 4 [3; 4294967295; 7] 6 5 0
              = Done (37, 4) [4; 4294967295; 39]) by (vm_compute; reflexivity).
  split; [exact E|].
  rewrite <- (acquire_lg2_refines_bounded 4 [3; 4294967295; 7] 6 5 0 Hwf Hl Hbit).
  exact E.
Defined.

(** ** The loop returns on aligned capacities *)

Lemma testbit_full k : 0 <= k < 32 -> Z.testbit u32_max k = true.
Proof. intros Hk. rewrite u32_max_ones. apply Z.ones_spec_low. lia. Qed.

(** A word that is not full is left after at most one failed claim. *)
Lemma claim_loop_in_word word_count h ws used b w fuel :
  0 <= b -> ws !! Z.to_nat (b / 32) = Some w -> is_u32 w -> w <> u32_max ->
  exists r buf',
    claim_loop (retry_lg2 word_count) (S (S fuel)) (h :: ws) used b = Done r buf'.
Proof.
  intros Hb Hl Hw Hne.
  assert (Hl' : (h :: ws) !! word_index b = Some w)
    by (rewrite word_index_succ by lia; exact Hl).
  destruct (Z.testbit w (b mod 32)) eqn:Hset.
  - rewrite (claim_loop_miss _ _ _ _ b w) by (split; assumption).
    unfold retry_lg2. destruct (Z.eqb_spec w u32_max); [contradiction|].
    pose proof (countr_one_range w). pose proof (countr_one_lt w Hw Hne).
    destruct (div32_block (b / 32) (countr_one w) ltac:(lia)) as [Hd Hm].
    eexists _, _. apply (claim_loop_hit _ _ _ _ _ w).
    + unfold word_index. rewrite Hd. exact Hl'.
    + rewrite Hm. now apply countr_one_zero.
  - eexists _, _. apply (claim_loop_hit _ _ _ _ _ w); assumption.
Qed.

(** From a bit whose word is [i0] words before one that is not full
    (cyclically, among the [Z.max word_count 1] words the loop visits),
    [i0 + 2] iterations are enough. *)
Lemma claim_loop_reaches word_count h ws used :
  Forall is_u32 ws -> Z.max word_count 1 <= Z.of_nat (length ws) ->
  forall i0 b fuel,
    0 <= b -> b / 32 < Z.max word_count 1 ->
    (exists w, ws !! Z.to_nat ((b / 32 + Z.of_nat i0) mod Z.max word_count 1)
               = Some w /\ w <> u32_max) ->
    (i0 + 2 <= fuel)%nat ->
    exists r buf',
      claim_loop (retry_lg2 word_count) fuel (h :: ws) used b = Done r buf'.
Proof.
  intros Hws Hlen. set (n := Z.max word_count 1) in *.
  assert (Hn : 0 < n) by (unfold n; lia).
  induction i0 as [|i0 IH]; intros b fuel Hb Hword (w0 & Hl0 & Hne0) Hfuel.
  - rewrite Z.add_0_r, Z.mod_small in Hl0
      by (split; [apply Z.div_pos; lia | assumption]).
    destruct fuel as [|[|fuel]]; try lia.
    apply claim_loop_in_word with (w := w0); trivial.
    eapply Forall_lookup_1; eauto.
  - assert (Hd0 : 0 <= b / 32) by (apply Z.div_pos; lia).
    destruct (lookup_lt_is_Some_2 ws (Z.to_nat (b / 32)) ltac:(lia)) as [w Hl].
    assert (Hw : is_u32 w) by (eapply Forall_lookup_1; eauto).
    destruct fuel as [|fuel]; [lia|].
    destruct (Z.eq_dec w u32_max) as [->|Hne].
    + rewrite (claim_loop_miss _ _ _ _ b u32_max).
      2: { split; [rewrite word_index_succ by lia; exact Hl|].
           apply testbit_full, mod32_range. }
      pose proof (mod32_range b) as Hk.
      assert (Hnext : 0 <= retry_lg2 word_count b u32_max /\
                      retry_lg2 word_count b u32_max / 32 = (b / 32 + 1) mod n).
      { unfold retry_lg2, next_base. rewrite Z.eqb_refl.
        destruct (Z.ltb_spec (b / 32 + 1) word_count).
        - destruct (div32_block (b / 32 + 1) (b mod 32) Hk) as [-> _].
          rewrite (Z.mod_small (b / 32 + 1) n) by (unfold n; lia). lia.
        - replace (b / 32 + 1) with n by (unfold n in *; lia).
          rewrite Z.mod_same by lia. split; [lia|].
          apply Z.div_small. lia. }
      destruct Hnext as [Hb' Hd'].
      apply IH; trivial.
      * rewrite Hd'. apply Z.mod_pos_bound. lia.
      * exists w0. split; [|assumption].
        rewrite Hd', Z.add_mod_idemp_l by lia.
        rewrite <- Hl0. do 3 f_equal. lia.
      * lia.
    + destruct fuel as [|fuel]; [lia|].
      now apply claim_loop_in_word with (w := w).
Qed.

(** Fewer 1 bits than [32 * n] among words of which at least [n] exist:
    one of the first [n] words is not full. *)
Lemma exists_word_not_full (ws : list Z) : forall n,
  (n <= length ws)%nat -> sum_popcount ws < 32 * Z.of_nat n ->
  exists m w, (m < n)%nat /\ ws !! m = Some w /\ w <> u32_max.
Proof.
  induction ws as [|x ws IH]; intros n Hlen Hsum.
  - simpl in *. lia.
  - assert (Hpos : 0 <= sum_popcount ws).
    { clear. induction ws as [|y ws IH]; simpl; [lia|].
      pose proof (popcount32_bounds y). lia. }
    pose proof (popcount32_bounds x) as Hx.
    cbn [sum_popcount foldr] in Hsum. fold (sum_popcount ws) in Hsum.
    destruct n as [|n]; [lia|].
    destruct (Z.eq_dec x u32_max) as [->|Hne].
    + rewrite popcount32_full in Hsum.
      destruct (IH n) as (m & w & Hm & Hl & Hw); [simpl in Hlen; lia | lia |].
      exists (S m), w. repeat split; trivial. lia.
    + exists 0%nat, x. repeat split; trivial. lia.
Qed.

(** On an aligned capacity, with fewer 1 bits in the bitmap than the
    capacity and every bitmap word present, the loop of either acquire
    function returns within [bit_bound / 32 + 2] iterations. *)
Lemma claim_loop_returns bit_bound h ws used bit fuel :
  aligned bit_bound -> 0 < bit_bound ->
  Forall is_u32 ws -> Z.max (bit_bound / 32) 1 <= Z.of_nat (length ws) ->
  sum_popcount ws < bit_bound -> 0 <= bit < bit_bound ->
  (Z.to_nat (bit_bound / 32) + 2 <= fuel)%nat ->
  exists r buf',
    claim_loop (retry_bounded bit_bound (bit_bound / 32)) fuel
               (h :: ws) used bit = Done r buf'.
Proof.
  intros Hal Hbb Hws Hlen Hsum Hbit Hfuel.
  set (n := Z.max (bit_bound / 32) 1) in *.
  assert (Hn : 0 < n) by (unfold n; lia).
  assert (Hword : bit / 32 < n).
  { unfold n. destruct Hal; Z.div_mod_to_equations; lia. }
  destruct (exists_word_not_full ws (Z.to_nat n)) as (m & w & Hm & Hl & Hw).
  { lia. }
  { rewrite Z2Nat.id by lia. unfold n. destruct Hal; Z.div_mod_to_equations; lia. }
  assert (Hkeep : forall b w',
            0 <= b < Z.max bit_bound 32 -> taken (h :: ws) b w' ->
            0 <= retry_bounded bit_bound (bit_bound / 32) b w'
              < Z.max bit_bound 32).
  { intros b w' Hb [Hl' _]. apply retry_aligned_range; trivial.
    rewrite word_index_succ in Hl' by lia. simpl in Hl'.
    eapply Forall_lookup_1; eauto. }
  rewrite <- (claim_loop_ext (retry_bounded bit_bound (bit_bound / 32)) (h :: ws)
                used (fun b => 0 <= b < Z.max bit_bound 32)
                Hkeep (retry_lg2 (bit_bound / 32)) fuel bit).
  - apply claim_loop_reaches
      with (i0 := Z.to_nat ((Z.of_nat m - bit / 32) mod n)); trivial; try lia.
    + exists w. split; [|assumption].
      rewrite Z2Nat.id by (apply Z.mod_pos_bound; lia).
      rewrite Z.add_mod_idemp_r by lia.
      replace (bit / 32 + (Z.of_nat m - bit / 32)) with (Z.of_nat m) by lia.
      rewrite Z.mod_small by lia. now rewrite Nat2Z.id.
    + pose proof (Z.mod_pos_bound (Z.of_nat m - bit / 32) n Hn).
      assert (n <= Z.max (bit_bound / 32) 1) by (unfold n; lia).
      destruct (Z.le_gt_cases 1 (bit_bound / 32)); lia.
  - intros b w' Hb [Hl' _]. apply retry_aligned_eq; trivial.
    rewrite word_index_succ in Hl' by lia. simpl in Hl'.
    eapply Forall_lookup_1; eauto.
  - lia.
Qed.

Lemma buffer_covers capacity (ws : list Z) h :
  aligned capacity -> 0 < capacity ->
  buffer_bound capacity <= Z.of_nat (length (h :: ws)) ->
  capacity <= max_bit_count ->
  Z.max (capacity / 32) 1 <= Z.of_nat (length ws).
Proof.
  intros Hal Hpos Hlen Hmax. unfold buffer_bound in Hlen.
  replace (capacity <=? max_bit_count) with true in Hlen
    by (symmetry; apply Z.leb_le; exact Hmax).
  rewrite shiftr_lg2, land_low5 in Hlen. simpl length in Hlen.
  destruct (Z.eqb_spec (capacity mod 32) 0);
    destruct Hal; Z.div_mod_to_equations; lia.
Qed.

(** With valid arguments, a matching tag and room left, [acquire_bounded]
    is its loop on the buffer with the incremented header. *)
Lemma acquire_bounded_as_loop fuel h ws capacity hint hdr :
  is_u32 h -> Forall is_u32 ws ->
  capacity <= max_bit_count -> hint < capacity ->
  Z.land hdr (not32 state_header_mask) = 0 ->
  hdr = Z.land h state_header_mask -> h mod 2 ^ 26 < capacity ->
  acquire_bounded fuel (h :: ws) capacity hint hdr
  = claim_loop (retry_bounded capacity (capacity / 32)) fuel
               ((h + 1) :: ws) (h mod 2 ^ 26) hint.
Proof.
  intros Hh Hws Hmax Hhint Hfit -> Hu.
  rewrite acquire_bounded_unfold by assumption.
  replace (max_bit_count <? capacity) with false
    by (symmetry; apply Z.ltb_ge; lia).
  replace (capacity <=? hint) with false by (symmetry; apply Z.leb_gt; lia).
  rewrite Hfit. cbn [Z.eqb negb orb]. unfold reserved.
  rewrite Z.eqb_refl. cbn [negb].
  replace (capacity <=? h mod 2 ^ 26) with false
    by (symmetry; apply Z.leb_gt; lia).
  reflexivity.
Qed.

(** On an aligned capacity [acquire_bounded] returns, and claims a bit:
    with valid arguments, a matching tag, and a used-count below the
    capacity and equal to the popcount of the bitmap, [capacity / 32 + 2]
    iterations of the loop are enough. *)
Lemma acquire_bounded_returns capacity buf hint hdr fuel :
  wf_buffer buf -> aligned capacity -> capacity <= max_bit_count ->
  buffer_bound capacity <= Z.of_nat (length buf) ->
  Z.land hdr (not32 state_header_mask) = 0 -> hdr = tag_of buf ->
  used_count buf = bitmap_popcount buf -> used_count buf < capacity ->
  0 <= hint < capacity ->
  (Z.to_nat (capacity / 32) + 2 <= fuel)%nat ->
  exists b buf',
    acquire_bounded fuel buf capacity hint hdr
    = Done (b, used_count buf + 1) buf' /\
    0 <= b < capacity /\
    bit_is_set buf b = false /\ bit_is_set buf' b = true.
Proof.
  intros Hwf Hal Hmax Hlen Hfit Htag Hq Hu Hhint Hfuel.
  destruct (wf_buffer_cons buf Hwf) as (h & ws & -> & Hh & Hws).
  rewrite used_count_cons in *.
  unfold bitmap_popcount in Hq. simpl in Hq.
  unfold tag_of, header in Htag. simpl in Htag.
  rewrite acquire_bounded_as_loop by (trivial; lia).
  destruct (claim_loop_returns capacity (h + 1) ws (h mod 2 ^ 26) hint fuel)
    as (r & buf' & Hrun); trivial; try lia.
  { apply (buffer_covers capacity ws h); trivial; lia. }
  rewrite Hrun.
  destruct (claim_loop_done (retry_bounded capacity (capacity / 32))
              ((h + 1) :: ws) (h mod 2 ^ 26) (fun b => 0 <= b < capacity))
    with (fuel := fuel) (bit := hint) (r := r) (buf' := buf')
    as (b & w & Hb & Hl & Hfree & -> & ->); trivial.
  { intros b w Hb [Hl _]. rewrite word_index_succ in Hl by lia.
    simpl in Hl. apply (retry_bounded_in_range ws); trivial. lia. }
  change max_bit_count with (2 ^ 25) in Hmax.
  pose proof (Z.mod_pos_bound h (2 ^ 26) ltac:(lia)).
  rewrite word_index_succ in Hl |- * by lia. simpl in Hl.
  destruct (claimed_state h ws b w) as (_ & _ & _ & _ & Hclr & Hset);
    trivial; try lia.
  rewrite !int_of_u32_small by lia.
  eexists _, _. split; [reflexivity|]. auto.
Qed.

(** ** Exhaustion on aligned capacities *)

Lemma claim_keeps_bits h ws b w c :
  0 <= b -> 0 <= c -> ws !! Z.to_nat (b / 32) = Some w ->
  bit_is_set (h :: ws) c = true ->
  bit_is_set ((h + 1) :: <[Z.to_nat (b / 32) := Z.lor w (2 ^ (b mod 32))]> ws) c
  = true.
Proof.
  intros Hb Hc Hl. unfold bit_is_set.
  rewrite !word_index_eq, !word_index_succ, land_low5 by lia. simpl.
  destruct (Nat.eq_dec (Z.to_nat (b / 32)) (Z.to_nat (c / 32))) as [E|E].
  - rewrite <- E, Hl. intros Hset.
    rewrite list_lookup_insert_eq by (eapply lookup_lt_Some; eauto).
    rewrite Z.lor_spec, Hset. reflexivity.
  - now rewrite list_lookup_insert_ne.
Qed.

(** One successful [acquire_bounded] on an aligned capacity, with all that
    the next call needs. *)
Lemma acquire_bounded_step capacity buf hint fuel :
  wf_buffer buf -> aligned capacity -> capacity <= max_bit_count ->
  buffer_bound capacity <= Z.of_nat (length buf) -> tag_of buf = 0 ->
  used_count buf = bitmap_popcount buf -> used_count buf < capacity ->
  0 <= hint < capacity ->
  (Z.to_nat (capacity / 32) + 2 <= fuel)%nat ->
  exists b buf',
    acquire_bounded fuel buf capacity hint 0
    = Done (b, used_count buf + 1) buf' /\
    0 <= b < capacity /\
    bit_is_set buf b = false /\ bit_is_set buf' b = true /\
    (forall c, 0 <= c -> bit_is_set buf c = true -> bit_is_set buf' c = true) /\
    wf_buffer buf' /\ length buf' = length buf /\ tag_of buf' = 0 /\
    used_count buf' = bitmap_popcount buf' /\
    used_count buf' = used_count buf + 1.
Proof.
  intros Hwf Hal Hmax Hlen Htag Hq Hu Hhint Hfuel.
  destruct (acquire_bounded_returns capacity buf hint 0 fuel)
    as (b & buf' & Hrun & Hb & Hclr & Hset); trivial; [now rewrite Htag|].
  destruct (wf_buffer_cons buf Hwf) as (h & ws & -> & Hh & Hws).
  assert (Hhint' : is_u32 hint)
    by (change max_bit_count with (2 ^ 25) in Hmax; apply u32_small; lia).
  pose proof (acquire_bounded_shape fuel h ws capacity hint 0 _ buf'
                Hh Hws Hhint' Hrun) as [[E _]|[[E _]|[[E _]|Hok]]];
    try (injection E as E _; lia).
  destruct Hok as (b' & w & Hb' & _ & _ & _ & Hu' & Hl & Hfree & E & ->).
  injection E as <-.
  change max_bit_count with (2 ^ 25) in Hmax.
  destruct (claimed_state h ws b w)
    as (Hwf' & Hused & Hpop & Htag' & _); trivial; try lia.
  do 2 eexists. split; [exact Hrun|].
  split; [exact Hb|]. split; [exact Hclr|]. split; [exact Hset|].
  split; [|split; [exact Hwf'|split; [|split; [|split]]]].
  - intros c Hc. apply claim_keeps_bits; trivial; lia.
  - simpl. now rewrite length_insert.
  - congruence.
  - lia.
  - exact Hused.
Qed.

Lemma seq_succ_map {A} (f : nat -> A) n :
  map f (seq 0 (S n)) = f 0%nat :: map (fun i => f (S i)) (seq 0 n).
Proof. simpl. f_equal. rewrite <- seq_shift, map_map. reflexivity. Qed.

(** On an aligned capacity, acquires succeed one after the other as long as
    there is room, for any hints below the capacity: the counts go up by
    one, the bits are pairwise distinct, below the capacity, free before and
    claimed after. *)
Lemma acquire_seq_aligned capacity fuel :
  aligned capacity -> capacity <= max_bit_count ->
  (Z.to_nat (capacity / 32) + 2 <= fuel)%nat ->
  forall hints buf,
    wf_buffer buf -> buffer_bound capacity <= Z.of_nat (length buf) ->
    tag_of buf = 0 -> used_count buf = bitmap_popcount buf ->
    used_count buf + Z.of_nat (length hints) <= capacity ->
    Forall (fun hint => 0 <= hint < capacity) hints ->
    exists rs final,
      acquire_seq fuel capacity hints buf = Some (rs, final) /\
      map snd rs = map (fun i => used_count buf + Z.of_nat i + 1)
                       (seq 0 (length hints)) /\
      Forall (fun b => 0 <= b < capacity /\ bit_is_set buf b = false /\
                       bit_is_set final b = true) (map fst rs) /\
      NoDup (map fst rs) /\
      (forall c, 0 <= c -> bit_is_set buf c = true -> bit_is_set final c = true) /\
      wf_buffer final /\ tag_of final = 0 /\
      used_count final = used_count buf + Z.of_nat (length hints).
Proof.
  intros Hal Hmax Hfuel.
  induction hints as [|hint hints IH]; intros buf Hwf Hlen Htag Hq Hroom Hhints.
  - exists [], buf. split; [reflexivity|]. split; [reflexivity|].
    split; [constructor|]. split; [constructor|]. split; [auto|].
    split; [exact Hwf|]. split; [exact Htag|]. simpl. lia.
  - inversion Hhints as [|? ? Hhint Hrest]; subst.
    cbn [length] in Hroom. rewrite Nat2Z.inj_succ in Hroom.
    destruct (acquire_bounded_step capacity buf hint fuel)
      as (b & buf1 & Hrun & Hb & Hclr & Hset & Hmono & Hwf1 & Hlen1 & Htag1
          & Hq1 & Hused1); trivial; try lia.
    destruct (IH buf1) as (rs & final & Hseq & Hcounts & Hbits & Hnodup
                           & Hmono' & Hwff & Htagf & Husedf); trivial;
      try lia; try (rewrite Hlen1; assumption).
    exists ((b, used_count buf + 1) :: rs), final.
    cbn [acquire_seq]. rewrite Hrun, Hseq.
    split; [reflexivity|]. split; [|split; [|split; [|split; [|repeat split]]]].
    + cbn [length]. rewrite seq_succ_map. cbn [map snd]. f_equal; [lia|].
      rewrite Hcounts. apply map_ext. intros i. rewrite Hused1. lia.
    + cbn [map fst]. constructor.
      * repeat split; try lia; auto. apply Hmono'; [lia | assumption].
      * eapply Forall_impl; [exact Hbits|].
        intros c (Hc & Hclr1 & Hsetf). repeat split; try lia; trivial.
        destruct (bit_is_set buf c) eqn:Hbc; [|reflexivity].
        rewrite (Hmono c ltac:(lia) Hbc) in Hclr1. discriminate.
    + cbn [map fst]. constructor; [|assumption].
      intros Hin. rewrite Forall_forall in Hbits.
      destruct (Hbits b Hin) as (_ & Hclr1 & _). congruence.
    + intros c Hc Hbc. apply Hmono'; [assumption|]. now apply Hmono.
    + apply Hwff.
    + apply Hwff.
    + assumption.
    + cbn [length]. lia.
Qed.

Lemma sum_popcount_zeros n : sum_popcount (replicate n 0) = 0.
Proof. induction n as [|n IH]; [reflexivity|]. simpl. rewrite IH. reflexivity. Qed.

Lemma fresh_quiescent capacity :
  capacity <= max_bit_count -> 0 <= capacity ->
  wf_buffer (fresh capacity) /\
  Z.of_nat (length (fresh capacity)) = buffer_bound capacity /\
  tag_of (fresh capacity) = 0 /\ used_count (fresh capacity) = 0 /\
  bitmap_popcount (fresh capacity) = 0.
Proof.
  intros Hmax Hpos. unfold fresh.
  assert (Hbb : 1 <= buffer_bound capacity).
  { unfold buffer_bound.
    replace (capacity <=? max_bit_count) with true
      by (symmetry; apply Z.leb_le; exact Hmax).
    rewrite shiftr_lg2. assert (0 <= capacity / 32) by (apply Z.div_pos; lia).
    destruct (_ =? 0); lia. }
  destruct (Z.to_nat (buffer_bound capacity)) as [|n] eqn:En; [lia|].
  repeat split.
  - discriminate.
  - apply Forall_replicate. unfold is_u32, u32_max. lia.
  - rewrite length_replicate. lia.
  - unfold bitmap_popcount. simpl. apply sum_popcount_zeros.
Qed.

(** Claim C4 on the capacities the loop handles: for an aligned capacity C
    and any C hints below C, the acquires on the zero-initialised buffer
    return C pairwise distinct bits of [0, C) with counts 1..C, and every
    further acquire returns (-1, -1) and leaves the count at C. *)
Lemma exhaustion_aligned capacity fuel hints :
  aligned capacity -> 0 < capacity <= max_bit_count ->
  (Z.to_nat (capacity / 32) + 2 <= fuel)%nat ->
  Z.of_nat (length hints) = capacity ->
  Forall (fun hint => 0 <= hint < capacity) hints ->
  exists rs final,
    acquire_seq fuel capacity hints (fresh capacity) = Some (rs, final) /\
    map snd rs = map (fun i => Z.of_nat i + 1) (seq 0 (length hints)) /\
    Forall (fun b => 0 <= b < capacity) (map fst rs) /\
    NoDup (map fst rs) /\
    used_count final = capacity /\
    forall fuel' hint,
      0 <= hint < capacity ->
      acquire_bounded fuel' final capacity hint 0 = Done (-1, -1) final.
Proof.
  intros Hal Hcap Hfuel Hlen Hhints.
  destruct (fresh_quiescent capacity) as (Hwf & Hl & Htag & Hused & Hpop);
    try lia.
  destruct (acquire_seq_aligned capacity fuel Hal ltac:(lia) Hfuel hints
              (fresh capacity))
    as (rs & final & Hseq & Hcounts & Hbits & Hnodup & _ & Hwff & Htagf & Husedf);
    trivial; try lia.
  exists rs, final. rewrite Hused in *.
  split; [exact Hseq|]. split; [|split; [|split; [|split]]].
  - rewrite Hcounts. apply map_ext. intros i. lia.
  - eapply Forall_impl; [exact Hbits|]. intros b Hb. apply Hb.
  - exact Hnodup.
  - lia.
  - intros fuel' hint Hhint.
    destruct (wf_buffer_cons final Hwff) as (h & ws & -> & Hh & Hws).
    rewrite used_count_cons in Husedf.
    unfold tag_of, header in Htagf. simpl in Htagf.
    rewrite acquire_bounded_unfold by assumption.
    replace (max_bit_count <? capacity) with false
      by (symmetry; apply Z.ltb_ge; lia).
    replace (capacity <=? hint) with false by (symmetry; apply Z.leb_gt; lia).
    cbn [orb]. replace (Z.land 0 (not32 state_header_mask)) with 0 by reflexivity.
    cbn [Z.eqb negb]. unfold reserved. rewrite Htagf. cbn [Z.eqb negb].
    replace (capacity <=? h mod 2 ^ 26) with true
      by (symmetry; apply Z.leb_le; lia).
    reflexivity.
Qed.

(** ** A capacity on which the loop does not return *)

(** The buffer thirty-two acquires with hint 0 leave for capacity 40: bitmap
    word 0 is full, the eight bits of the partial word 1 are free. *)
Lemma spin_on_partial_word fuel :
  acquire_bounded fuel [32; u32_max; 0] 40 0 0 = OutOfFuel.
Proof.
  rewrite acquire_bounded_unfold.
  - replace ((max_bit_count <? 40)
             || negb (Z.land 0 (not32 state_header_mask) =? 0) || (40 <=? 0))
      with false by reflexivity.
    unfold reserved.
    replace (negb (0 =? Z.land 32 state_header_mask)) with false by reflexivity.
    replace (40 <=? 32 mod 2 ^ 26) with false by reflexivity.
    apply (claim_loop_stuck _ _ _ 0 u32_max).
    + split; reflexivity.
    + reflexivity.
  - unfold is_u32, u32_max. lia.
  - repeat constructor; unfold u32_max; lia.
Qed.

(** C9.  The claim: once the reserve phase has found the arguments valid,
    the tag matching and the used-count below the capacity and equal to the
    popcount of the bitmap, the retry loop returns.  On the buffer of
    capacity 40 whose first 32 bits are claimed all this holds, and
    [acquire_bounded] with hint 0 tries bit 0 for ever: [word_count] is
    [bit_bound >> 5 = 1], so a full word 0 is followed by word 0. *)
Theorem claim_loop_spins :
  let buf := [32; u32_max; 0] in
  wf_buffer buf /\ Z.of_nat (length buf) = buffer_bound 40 /\
  tag_of buf = 0 /\ used_count buf = bitmap_popcount buf /\
  used_count buf < 40 <= max_bit_count /\
  forall fuel, acquire_bounded fuel buf 40 0 0 = OutOfFuel.
Proof.
  cbv zeta. split.
  { split; [discriminate|]. repeat constructor; unfold u32_max; lia. }
  do 3 (split; [reflexivity|]). split.
  { vm_compute. split; [reflexivity | discriminate]. }
  exact spin_on_partial_word.
Qed.

(** ** Exhaustion *)

(** C4.  The claim: on a zero-initialised buffer of capacity C, C acquires
    succeed with distinct bits and counts 1..C, and the next one returns
    (-1, -1).  For C = 40 and the default hint 0, the first 32 acquires
    return bits 0..31 with counts 1..32, and the 33rd never returns. *)
Theorem exhaustion_spins_at_40 :
  acquire_seq 2 40 (replicate 32 0) (fresh 40)
  = Some (map (fun i => (Z.of_nat i, Z.of_nat i + 1)) (seq 0 32),
          [32; u32_max; 0]) /\
  forall fuel, acquire_bounded fuel [32; u32_max; 0] 40 0 0 = OutOfFuel.
Proof. split; [vm_compute; reflexivity | exact spin_on_partial_word]. Qed.

(** The scenario of the specification, capacity 8: eight acquires return
    bits 0..7 with counts 1..8, the ninth returns (-1, -1) and leaves the
    count at 8. *)
Lemma exhaustion_capacity_8 :
  acquire_seq 2 8 (replicate 8 0) (fresh 8)
  = Some (map (fun i => (Z.of_nat i, Z.of_nat i + 1)) (seq 0 8), [8; 255]) /\
  acquire_bounded 0 [8; 255] 8 0 0 = Done (-1, -1) [8; 255].
Proof. split; vm_compute; reflexivity. Qed.

(** * Further properties of the code *)

(** ** Sizing a buffer *)

Lemma buffer_bound_value bit_bound :
  bit_bound <= max_bit_count ->
  buffer_bound bit_bound
  = 1 + bit_bound / 32 + (if bit_bound mod 32 =? 0 then 0 else 1).
Proof.
  intros Hmax. unfold buffer_bound.
  replace (bit_bound <=? max_bit_count) with true
    by (symmetry; apply Z.leb_le; exact Hmax).
  now rewrite shiftr_lg2, land_low5.
Qed.

(** X1.  For a bound of at most [max_bit_count], [buffer_bound] is the
    header word plus the bitmap words rounded up: the word of every bit
    below the bound lies inside a buffer of that many words, and one word
    less would not hold them all. *)
Theorem buffer_bound_tight bit_bound :
  0 < bit_bound <= max_bit_count ->
  (forall bit, 0 <= bit < bit_bound ->
     Z.shiftr bit bits_per_int_lg2 + 1 < buffer_bound bit_bound) /\
  32 * (buffer_bound bit_bound - 2) < bit_bound <= 32 * (buffer_bound bit_bound - 1).
Proof.
  intros [Hpos Hmax]. rewrite buffer_bound_value by assumption. split.
  - intros bit Hbit. rewrite shiftr_lg2.
    destruct (Z.eqb_spec (bit_bound mod 32) 0); Z.div_mod_to_equations; lia.
  - destruct (Z.eqb_spec (bit_bound mod 32) 0); Z.div_mod_to_equations; lia.
Qed.

Lemma buffer_bound_tight_witness :
  (forall bit, 0 <= bit < 40 -> Z.shiftr bit bits_per_int_lg2 + 1 < 3) /\
  32 * (3 - 2) < 40 <= 32 * (3 - 1).
Proof.
  assert (H : 0 < 40 <= max_bit_count) by (vm_compute; split; [reflexivity | discriminate]).
  exact (buffer_bound_tight 40 H).
Defined.

(** X2.  Both sizing functions return the sentinel 0 exactly when the bound
    is above the maximum ([max_bit_count] bits, [max_bit_count_lg2] as a
    logarithm).  [buffer_bound 0] is 1, the header alone; every bound from 1
    to the maximum, and every valid logarithm, gets at least the header and
    one bitmap word. *)
Theorem buffer_bound_sentinel :
  (forall bit_bound, 0 <= bit_bound ->
     (buffer_bound bit_bound = 0 <-> max_bit_count < bit_bound) /\
     (bit_bound = 0 -> buffer_bound bit_bound = 1) /\
     (0 < bit_bound <= max_bit_count -> 2 <= buffer_bound bit_bound)) /\
  (forall lg2, 0 <= lg2 ->
     (buffer_bound_lg2 lg2 = 0 <-> max_bit_count_lg2 < lg2) /\
     (lg2 <= max_bit_count_lg2 -> 2 <= buffer_bound_lg2 lg2)).
Proof.
  split.
  - intros bb Hbb. split; [split|split].
    + intros Hz. destruct (Z.lt_ge_cases max_bit_count bb) as [|Hle]; [assumption|].
      rewrite buffer_bound_value in Hz by assumption.
      destruct (_ =? 0); Z.div_mod_to_equations; lia.
    + intros Hgt. unfold buffer_bound.
      replace (bb <=? max_bit_count) with false
        by (symmetry; apply Z.leb_gt; exact Hgt). reflexivity.
    + intros ->. reflexivity.
    + intros [Hpos Hmax]. rewrite buffer_bound_value by assumption.
      destruct (Z.eqb_spec (bb mod 32) 0); Z.div_mod_to_equations; lia.
  - intros lg2 Hl. unfold buffer_bound_lg2.
    destruct (Z.leb_spec lg2 max_bit_count_lg2) as [Hle|Hgt].
    + assert (Hp : 0 < Z.shiftl 1 (if bits_per_int_lg2 <? lg2
                                    then lg2 - bits_per_int_lg2 else 0)).
      { rewrite Z.shiftl_1_l. apply Z.pow_pos_nonneg; [lia|].
        unfold bits_per_int_lg2. destruct (Z.ltb_spec 5 lg2); lia. }
      split; [split; lia | lia].
    + split; [split; [lia | reflexivity] | lia].
Qed.

Lemma buffer_bound_sentinel_witness :
  buffer_bound 33554433 = 0 /\ buffer_bound 0 = 1 /\ 2 <= buffer_bound 1 /\
  buffer_bound_lg2 26 = 0 /\ 2 <= buffer_bound_lg2 0.
Proof.
  destruct buffer_bound_sentinel as [Hb Hl].
  destruct (Hb 33554433 ltac:(lia)) as [[_ H1] _].
  destruct (Hb 0 ltac:(lia)) as (_ & H0 & _).
  destruct (Hb 1 ltac:(lia)) as (_ & _ & H2).
  destruct (Hl 26 ltac:(lia)) as [[_ H3] _].
  destruct (Hl 0 ltac:(lia)) as [_ H4].
  split; [apply H1; vm_compute; reflexivity|].
  split; [apply H0; reflexivity|].
  split; [apply H2; vm_compute; split; [reflexivity | discriminate]|].
  split; [apply H3; vm_compute; reflexivity|].
  apply H4. vm_compute. discriminate.
Defined.

Lemma pow2_div32 lg2 :
  5 <= lg2 -> 2 ^ lg2 / 32 = 2 ^ (lg2 - 5) /\ 2 ^ lg2 mod 32 = 0.
Proof.
  intros Hl. replace lg2 with (5 + (lg2 - 5)) at 1 3 by lia.
  rewrite Z.pow_add_r by lia. change (2 ^ 5) with 32.
  rewrite (Z.mul_comm 32). split; [apply Z.div_mul | apply Z.mod_mul]; lia.
Qed.

Lemma buffer_bound_lg2_pow2 lg2 :
  0 <= lg2 -> buffer_bound_lg2 lg2 = buffer_bound (2 ^ lg2).
Proof.
  intros Hl. unfold buffer_bound_lg2.
  destruct (Z.leb_spec lg2 max_bit_count_lg2) as [Hle|Hgt].
  - unfold max_bit_count_lg2 in Hle.
    assert (Hp : 2 ^ lg2 <= max_bit_count)
      by (change max_bit_count with (2 ^ 25); apply Z.pow_le_mono_r; lia).
    rewrite buffer_bound_value, Z.shiftl_1_l by assumption.
    unfold bits_per_int_lg2.
    destruct (Z.ltb_spec 5 lg2) as [Hbig|Hsmall].
    + destruct (pow2_div32 lg2 ltac:(lia)) as [-> ->]. simpl. lia.
    + assert (Hc : lg2 = 0 \/ lg2 = 1 \/ lg2 = 2 \/ lg2 = 3 \/ lg2 = 4 \/ lg2 = 5)
        by lia.
      destruct Hc as [->|[->|[->|[->|[->| ->]]]]]; reflexivity.
  - unfold max_bit_count_lg2 in Hgt. unfold buffer_bound.
    assert (2 ^ 26 <= 2 ^ lg2) by (apply Z.pow_le_mono_r; lia).
    replace (2 ^ lg2 <=? max_bit_count) with false; [reflexivity|].
    symmetry. apply Z.leb_gt. change max_bit_count with (2 ^ 25). lia.
Qed.

(** X3.  [buffer_bound_lg2] is [buffer_bound] on the power of two: for every
    logarithm from 0 to 31, the values for which [2 ^ bit_bound_lg2] is a
    [uint32_t], the two sizing functions give the same number of words, the
    sentinel 0 above [max_bit_count_lg2] included. *)
Theorem buffer_bound_lg2_agrees lg2 :
  0 <= lg2 < 32 ->
  is_u32 (2 ^ lg2) /\ buffer_bound_lg2 lg2 = buffer_bound (2 ^ lg2).
Proof.
  intros Hl. split; [|apply buffer_bound_lg2_pow2; lia].
  apply u32_small. split; [apply Z.pow_nonneg; lia|].
  apply Z.pow_lt_mono_r; lia.
Qed.

Lemma buffer_bound_lg2_agrees_witness :
  buffer_bound_lg2 7 = 5 /\ buffer_bound (2 ^ 7) = 5.
Proof.
  assert (E : buffer_bound_lg2 7 = 5) by reflexivity.
  split; [exact E|].
  rewrite <- (proj2 (buffer_bound_lg2_agrees 7 ltac:(lia))). exact E.
Defined.

(** ** Staying inside the buffer *)

(** Whatever the capacity, [acquire_bounded] only tries bits below the
    capacity, or below 32 when the capacity is smaller than a word. *)
Lemma retry_bounded_range bit_bound b w :
  is_u32 w -> 0 <= bit_bound -> 0 <= b < Z.max bit_bound 32 ->
  0 <= retry_bounded bit_bound (bit_bound / 32) b w < Z.max bit_bound 32.
Proof.
  intros Hw Hbb Hb.
  retry_cases w; try pose proof (countr_one_lt w Hw ltac:(assumption));
    Z.div_mod_to_equations; lia.
Qed.

Lemma claim_loop_in_bounds retry (buf : buffer) used (P : Z -> Prop) :
  (forall b w, P b -> taken buf b w -> P (retry b w)) ->
  (forall b, P b -> is_Some (buf !! word_index b)) ->
  forall fuel bit, P bit -> claim_loop retry fuel buf used bit <> OutOfBounds.
Proof.
  intros Hkeep Hin. induction fuel as [|fuel IH]; intros bit HP; [discriminate|].
  cbn [claim_loop]. destruct (Hin bit HP) as [w Hl]. rewrite Hl.
  destruct (Z.testbit w (bit mod 32)) eqn:Hb; [|discriminate].
  apply IH, Hkeep; [assumption | now split].
Qed.

Lemma acquire_bounded_safe fuel buf capacity bit hdr :
  wf_buffer buf -> is_u32 bit ->
  buffer_bound capacity <= Z.of_nat (length buf) ->
  acquire_bounded fuel buf capacity bit hdr <> OutOfBounds.
Proof.
  intros Hwf [Hbit _] Hlen.
  destruct (wf_buffer_cons buf Hwf) as (h & ws & -> & Hh & Hws).
  rewrite acquire_bounded_unfold by assumption.
  destruct (_ || _ || _) eqn:Hargs; [discriminate|].
  apply orb_false_elim in Hargs as [Hargs Hhint].
  apply orb_false_elim in Hargs as [Hmax _].
  apply Z.ltb_ge in Hmax. apply Z.leb_gt in Hhint.
  unfold reserved. destruct (negb _); [discriminate|].
  destruct (_ <=? _); [discriminate|].
  rewrite buffer_bound_value in Hlen by assumption.
  apply (claim_loop_in_bounds _ _ _ (fun b => 0 <= b < Z.max capacity 32)).
  - intros b w Hb [Hl _]. apply retry_bounded_range; trivial; [|lia].
    rewrite word_index_succ in Hl by lia. simpl in Hl.
    eapply Forall_lookup_1; eauto.
  - intros b Hb. apply lookup_lt_is_Some_2. unfold word_index.
    simpl length in *.
    destruct (Z.eqb_spec (capacity mod 32) 0); Z.div_mod_to_equations; lia.
  - lia.
Qed.

(** X4.  On a buffer with at least [buffer_bound capacity] words,
    [acquire_bounded] never reads or writes outside the buffer: whatever the
    header and the bitmap hold, and whatever the hint and the tag, every
    word it touches is one of the buffer's. *)
Theorem acquire_bounded_in_buffer fuel buf capacity bit hdr :
  wf_buffer buf -> is_u32 bit ->
  buffer_bound capacity <= Z.of_nat (length buf) ->
  acquire_bounded fuel buf capacity bit hdr <> OutOfBounds.
Proof. apply acquire_bounded_safe. Qed.

Lemma acquire_bounded_in_buffer_witness :
  acquire_bounded 9 [0; 4294967295; 255] 40 7 0 <> OutOfBounds.
Proof.
  apply acquire_bounded_in_buffer.
  - split; [discriminate|]. repeat constructor; unfold u32_max; lia.
  - unfold is_u32, u32_max. lia.
  - vm_compute. discriminate.
Defined.

(** X5.  With a hint below [2 ^ bit_bound_lg2], [acquire_bounded_lg2] stays
    inside a buffer of [buffer_bound_lg2 bit_bound_lg2] words, on every
    buffer contents. *)
Theorem acquire_bounded_lg2_in_buffer fuel buf lg2 bit hdr :
  wf_buffer buf -> 0 <= lg2 -> 0 <= bit < 2 ^ lg2 ->
  buffer_bound_lg2 lg2 <= Z.of_nat (length buf) ->
  acquire_bounded_lg2 fuel buf lg2 bit hdr <> OutOfBounds.
Proof.
  intros Hwf Hl Hbit Hlen.
  destruct (Z.lt_ge_cases 25 lg2) as [Hbig|Hsmall].
  { now rewrite acquire_bounded_lg2_too_large. }
  rewrite acquire_lg2_as_bounded by (trivial; lia).
  apply acquire_bounded_safe; trivial.
  - assert (2 ^ lg2 <= 2 ^ 25) by (apply Z.pow_le_mono_r; lia).
    apply u32_small. lia.
  - now rewrite <- buffer_bound_lg2_pow2.
Qed.

Lemma acquire_bounded_lg2_in_buffer_witness :
  acquire_bounded_lg2 9 [0; 4294967295; 255] 6 63 0 <> OutOfBounds.
Proof.
  apply acquire_bounded_lg2_in_buffer.
  - split; [discriminate|]. repeat constructor; unfold u32_max; lia.
  - lia.
  - lia.
  - vm_compute. discriminate.
Defined.

(** X6.  The hint [2 ^ bit_bound_lg2] passes the argument check of
    [acquire_bounded_lg2] (its guard is [bit_bound < bit]).  For a capacity
    of one word or more, on a buffer of exactly
    [buffer_bound_lg2 bit_bound_lg2] words with a matching tag and room
    left, the first fetch-or of the loop then addresses the word just past
    the end of the buffer. *)
Theorem acquire_bounded_lg2_past_end fuel buf lg2 hdr :
  wf_buffer buf -> 5 <= lg2 <= max_bit_count_lg2 ->
  Z.of_nat (length buf) = buffer_bound_lg2 lg2 ->
  Z.land hdr (not32 state_header_mask) = 0 -> hdr = tag_of buf ->
  used_count buf < 2 ^ lg2 ->
  acquire_bounded_lg2 (S fuel) buf lg2 (2 ^ lg2) hdr = OutOfBounds.
Proof.
  intros Hwf Hl Hlen Hfit Htag Hu. unfold max_bit_count_lg2 in Hl.
  destruct (wf_buffer_cons buf Hwf) as (h & ws & -> & Hh & Hws).
  rewrite used_count_cons in Hu. unfold tag_of, header in Htag. simpl in Htag.
  rewrite acquire_bounded_lg2_unfold by (trivial; lia).
  rewrite Hfit, Z.ltb_irrefl. cbn [Z.eqb negb orb]. unfold reserved.
  rewrite Htag, Z.eqb_refl. cbn [negb].
  replace (2 ^ lg2 <=? h mod 2 ^ 26) with false
    by (symmetry; apply Z.leb_gt; exact Hu).
  cbn [claim_loop].
  assert (Hp : 0 < 2 ^ lg2) by (apply Z.pow_pos_nonneg; lia).
  rewrite word_index_succ by lia. simpl.
  rewrite buffer_bound_lg2_pow2, buffer_bound_value in Hlen; try lia.
  2: { change max_bit_count with (2 ^ 25). apply Z.pow_le_mono_r; lia. }
  destruct (pow2_div32 lg2 ltac:(lia)) as [Hd Hm].
  rewrite Hm, Hd in Hlen. simpl in Hlen.
  rewrite Hd, lookup_ge_None_2; [reflexivity|].
  assert (0 < 2 ^ (lg2 - 5)) by (apply Z.pow_pos_nonneg; lia). lia.
Qed.

Lemma acquire_bounded_lg2_past_end_witness :
  acquire_bounded_lg2 1 [0; 0] 5 (2 ^ 5) 0 = OutOfBounds.
Proof.
  apply acquire_bounded_lg2_past_end.
  - split; [discriminate|]. repeat constructor; unfold u32_max; lia.
  - unfold max_bit_count_lg2. lia.
  - reflexivity.
  - reflexivity.
  - reflexivity.
  - vm_compute. reflexivity.
Defined.

(** ** What a successful acquire changes *)

Lemma mod32_differs b c :
  b <> c -> b / 32 = c / 32 -> b mod 32 <> c mod 32.
Proof. intros Hne Hd. Z.div_mod_to_equations. lia. Qed.

(** Setting bit [b] leaves every other bit as it was. *)
Lemma claim_frame h h' ws b w c :
  0 <= b -> 0 <= c -> c <> b -> ws !! Z.to_nat (b / 32) = Some w ->
  bit_is_set (h' :: <[Z.to_nat (b / 32) := Z.lor w (2 ^ (b mod 32))]> ws) c
  = bit_is_set (h :: ws) c.
Proof.
  intros Hb Hc Hne Hl. unfold bit_is_set.
  rewrite !word_index_eq, !word_index_succ, land_low5 by lia. simpl.
  destruct (Nat.eq_dec (Z.to_nat (b / 32)) (Z.to_nat (c / 32))) as [E|E].
  - rewrite <- E, Hl.
    rewrite list_lookup_insert_eq by (eapply lookup_lt_Some; eauto).
    rewrite Z.lor_spec, testbit_pow2 by apply mod32_range.
    assert (Hd : b / 32 = c / 32).
    { apply Z2Nat.inj; trivial; apply Z.div_pos; lia. }
    destruct (Z.eqb_spec (b mod 32) (c mod 32)) as [Hm|_];
      [|apply orb_false_r].
    exfalso. apply (mod32_differs b c); auto.
  - now rewrite list_lookup_insert_ne.
Qed.

Lemma acquire_shape_success bit_bound h ws hdr b n buf' :
  is_u32 h -> Forall is_u32 ws -> 0 <= b ->
  acquire_shape bit_bound h ws hdr (b, n) buf' ->
  bit_is_set (h :: ws) b = false /\ bit_is_set buf' b = true /\
  n = used_count (h :: ws) + 1 /\ n <= bit_bound /\ used_count buf' = n /\
  tag_of buf' = tag_of (h :: ws) /\ length buf' = length (h :: ws) /\
  (forall c, is_u32 c -> c <> b -> bit_is_set buf' c = bit_is_set (h :: ws) c).
Proof.
  intros Hh Hws Hb0 [[E _]|[[E _]|[[E _]|Hok]]]; try (injection E as -> _; lia).
  destruct Hok as (b' & w & Hb & Hbb & _ & _ & Hu & Hl & Hfree & E & ->).
  injection E as <- ->.
  destruct (claimed_state h ws b w)
    as (_ & Hused & _ & Htag & Hclr & Hset); trivial; try lia.
  pose proof (used_count_cons h ws) as Hcount.
  split; [exact Hclr|]. split; [exact Hset|]. split; [lia|].
  split; [lia|]. split; [lia|]. split; [exact Htag|].
  split; [simpl; now rewrite length_insert|].
  intros c [Hc _] Hne. apply claim_frame; trivial; lia.
Qed.

(** X7.  On any buffer, consistent or not, a successful acquire (either
    variant) returns a bit that was 0 and is now 1, together with the prior
    used-count plus one, which never exceeds the capacity; the used-count of
    the buffer is that count, and the tag bits, the length of the buffer and
    every other bit are as before. *)
Theorem acquire_claims_one_free_bit buf hdr b n buf' :
  wf_buffer buf -> 0 <= b ->
  (forall fuel capacity hint,
     is_u32 hint ->
     acquire_bounded fuel buf capacity hint hdr = Done (b, n) buf' ->
     bit_is_set buf b = false /\ bit_is_set buf' b = true /\
     n = used_count buf + 1 /\ n <= capacity /\ used_count buf' = n /\
     tag_of buf' = tag_of buf /\ length buf' = length buf /\
     (forall c, is_u32 c -> c <> b -> bit_is_set buf' c = bit_is_set buf c)) /\
  (forall fuel lg2 hint,
     is_u32 hint -> 0 <= lg2 ->
     acquire_bounded_lg2 fuel buf lg2 hint hdr = Done (b, n) buf' ->
     bit_is_set buf b = false /\ bit_is_set buf' b = true /\
     n = used_count buf + 1 /\ n <= 2 ^ lg2 /\ used_count buf' = n /\
     tag_of buf' = tag_of buf /\ length buf' = length buf /\
     (forall c, is_u32 c -> c <> b -> bit_is_set buf' c = bit_is_set buf c)).
Proof.
  intros Hwf Hb.
  destruct (wf_buffer_cons buf Hwf) as (h & ws & -> & Hh & Hws).
  split.
  - intros fuel capacity hint Hhint Hrun.
    apply (acquire_shape_success capacity h ws hdr); trivial.
    now apply (acquire_bounded_shape fuel h ws capacity hint).
  - intros fuel lg2 hint Hhint Hl Hrun.
    apply (acquire_shape_success (2 ^ lg2) h ws hdr); trivial.
    now apply (acquire_bounded_lg2_shape fuel h ws lg2 hint).
Qed.

Lemma acquire_claims_one_free_bit_witness :
  acquire_bounded 3 [0; 127] 40 0 0 = Done (7, 1) [1; 255] /\
  bit_is_set [0; 127] 7 = false /\ bit_is_set [1; 255] 7 = true /\
  bit_is_set [1; 255] 9 = bit_is_set [0; 127] 9.
Proof.
  assert (Hwf : wf_buffer [0; 127]).
  { split; [discriminate|]. repeat constructor; unfold u32_max; lia. }
  assert (Hrun : acquire_bounded 3 [0; 127] 40 0 0 = Done (7, 1) [1; 255])
    by (vm_compute; reflexivity).
  assert (H0 : is_u32 0) by (unfold is_u32, u32_max; lia).
  assert (H9 : is_u32 9) by (unfold is_u32, u32_max; lia).
  destruct (proj1 (acquire_claims_one_free_bit [0; 127] 0 7 1 [1; 255]
                     Hwf ltac:(lia)) 3%nat 40 0 H0 Hrun)
    as (Hclr & Hset & _ & _ & _ & _ & _ & Hframe).
  split; [exact Hrun|]. split; [exact Hclr|]. split; [exact Hset|].
  apply Hframe; [exact H9 | lia].
Defined.

(** X8.  A free hint is the bit returned: with valid arguments, a matching
    tag and room left, when the hinted bit is 0 (and its word is in the
    buffer) [acquire_bounded] claims exactly that bit at its first try. *)
Theorem acquire_takes_free_hint fuel buf capacity hint hdr :
  wf_buffer buf -> capacity <= max_bit_count -> 0 <= hint < capacity ->
  buffer_bound capacity <= Z.of_nat (length buf) ->
  Z.land hdr (not32 state_header_mask) = 0 -> hdr = tag_of buf ->
  used_count buf < capacity -> bit_is_set buf hint = false ->
  exists buf',
    acquire_bounded (S fuel) buf capacity hint hdr
    = Done (hint, used_count buf + 1) buf' /\
    bit_is_set buf' hint = true.
Proof.
  intros Hwf Hmax Hhint Hlen Hfit Htag Hu Hclr.
  destruct (wf_buffer_cons buf Hwf) as (h & ws & -> & Hh & Hws).
  rewrite used_count_cons in *. unfold tag_of, header in Htag. simpl in Htag.
  rewrite buffer_bound_value in Hlen by assumption. simpl length in Hlen.
  destruct (lookup_lt_is_Some_2 ws (Z.to_nat (hint / 32))) as [w Hl].
  { destruct (Z.eqb_spec (capacity mod 32) 0); Z.div_mod_to_equations; lia. }
  unfold bit_is_set in Hclr.
  rewrite word_index_eq, word_index_succ, land_low5 in Hclr by lia.
  simpl in Hclr. rewrite Hl in Hclr.
  change max_bit_count with (2 ^ 25) in Hmax.
  rewrite acquire_bounded_unfold by assumption.
  replace (max_bit_count <? capacity) with false
    by (symmetry; apply Z.ltb_ge; exact Hmax).
  replace (capacity <=? hint) with false by (symmetry; apply Z.leb_gt; lia).
  rewrite Hfit. cbn [Z.eqb negb orb].
  rewrite (reserved_free_hint _ fuel h ws capacity hint hdr w);
    trivial; try lia.
  eexists. split; [reflexivity|].
  destruct (claimed_state h ws hint w) as (_ & _ & _ & _ & _ & Hset);
    trivial; lia.
Qed.

Lemma acquire_takes_free_hint_witness :
  exists buf',
    acquire_bounded 1 [3; 7] 8 5 0 = Done (5, used_count [3; 7] + 1) buf' /\
    bit_is_set buf' 5 = true.
Proof.
  apply acquire_takes_free_hint.
  - split; [discriminate|]. repeat constructor; unfold u32_max; lia.
  - vm_compute. discriminate.
  - lia.
  - vm_compute. discriminate.
  - reflexivity.
  - reflexivity.
  - vm_compute. reflexivity.
  - reflexivity.
Defined.

(** ** Errors of acquire *)

(** X9.  A used-count at or above the capacity makes acquire return
    (-1, -1) without looking at the bitmap: with valid arguments and a
    matching tag the buffer is left exactly as it was (the increment of the
    header is taken back), even when bits are free. *)
Theorem acquire_full buf hdr :
  wf_buffer buf ->
  Z.land hdr (not32 state_header_mask) = 0 -> hdr = tag_of buf ->
  (forall fuel capacity hint,
     capacity <= max_bit_count -> hint < capacity ->
     capacity <= used_count buf ->
     acquire_bounded fuel buf capacity hint hdr = Done (-1, -1) buf) /\
  (forall fuel lg2 hint,
     0 <= lg2 <= max_bit_count_lg2 -> hint <= 2 ^ lg2 ->
     2 ^ lg2 <= used_count buf ->
     acquire_bounded_lg2 fuel buf lg2 hint hdr = Done (-1, -1) buf).
Proof.
  intros Hwf Hfit Htag.
  destruct (wf_buffer_cons buf Hwf) as (h & ws & -> & Hh & Hws).
  rewrite used_count_cons. unfold tag_of, header in Htag. simpl in Htag.
  split.
  - intros fuel capacity hint Hmax Hhint Hfull.
    rewrite acquire_bounded_unfold by assumption.
    replace (max_bit_count <? capacity) with false
      by (symmetry; apply Z.ltb_ge; exact Hmax).
    replace (capacity <=? hint) with false by (symmetry; apply Z.leb_gt; lia).
    rewrite Hfit. cbn [Z.eqb negb orb]. unfold reserved.
    rewrite Htag, Z.eqb_refl. cbn [negb].
    replace (capacity <=? h mod 2 ^ 26) with true
      by (symmetry; apply Z.leb_le; exact Hfull).
    reflexivity.
  - intros fuel lg2 hint Hl Hhint Hfull. unfold max_bit_count_lg2 in Hl.
    rewrite acquire_bounded_lg2_unfold by assumption.
    replace (2 ^ lg2 <? hint) with false by (symmetry; apply Z.ltb_ge; lia).
    rewrite Hfit. cbn [Z.eqb negb orb]. unfold reserved.
    rewrite Htag, Z.eqb_refl. cbn [negb].
    replace (2 ^ lg2 <=? h mod 2 ^ 26) with true
      by (symmetry; apply Z.leb_le; exact Hfull).
    reflexivity.
Qed.

Lemma acquire_full_witness :
  acquire_bounded 0 [8; 0] 8 3 0 = Done (-1, -1) [8; 0] /\
  acquire_bounded_lg2 0 [8; 0] 3 3 0 = Done (-1, -1) [8; 0].
Proof.
  assert (Hwf : wf_buffer [8; 0]).
  { split; [discriminate|]. repeat constructor; unfold u32_max; lia. }
  destruct (acquire_full [8; 0] 0 Hwf eq_refl eq_refl) as [Hb Hl].
  split.
  - apply Hb; [vm_compute; discriminate | lia | vm_compute; discriminate].
  - apply Hl; [unfold max_bit_count_lg2; lia | lia | vm_compute; discriminate].
Defined.

(** X10.  A capacity above the maximum, or a state header with a bit outside
    [state_header_mask], is refused with (-3, -3) before the buffer is
    touched: the result is the same on every buffer, the empty one
    included, for every hint. *)
Theorem acquire_invalid_argument fuel (buf : buffer) hint hdr :
  (forall capacity,
     max_bit_count < capacity \/ Z.land hdr (not32 state_header_mask) <> 0 ->
     acquire_bounded fuel buf capacity hint hdr = Done (-3, -3) buf) /\
  (forall lg2,
     max_bit_count_lg2 < lg2 \/ Z.land hdr (not32 state_header_mask) <> 0 ->
     acquire_bounded_lg2 fuel buf lg2 hint hdr = Done (-3, -3) buf).
Proof.
  split.
  - intros capacity [Hbig|Hhdr]; unfold acquire_bounded.
    + replace (max_bit_count <? capacity) with true
        by (symmetry; apply Z.ltb_lt; exact Hbig). reflexivity.
    + replace (Z.land hdr (not32 state_header_mask) =? 0) with false
        by (symmetry; apply Z.eqb_neq; exact Hhdr).
      cbn [negb]. now rewrite orb_true_r.
  - intros lg2 [Hbig|Hhdr]; unfold acquire_bounded_lg2; cbv zeta.
    + replace (max_bit_count_lg2 <? lg2) with true
        by (symmetry; apply Z.ltb_lt; exact Hbig). reflexivity.
    + replace (Z.land hdr (not32 state_header_mask) =? 0) with false
        by (symmetry; apply Z.eqb_neq; exact Hhdr).
      cbn [negb]. now rewrite orb_true_r.
Qed.

Lemma acquire_invalid_argument_witness :
  acquire_bounded 4 [] 33554433 0 0 = Done (-3, -3) [] /\
  acquire_bounded_lg2 4 [0; 0] 3 0 1 = Done (-3, -3) [0; 0].
Proof.
  split.
  - apply (proj1 (acquire_invalid_argument 4 [] 0 0)). left.
    vm_compute. reflexivity.
  - apply (proj2 (acquire_invalid_argument 4 [0; 0] 0 1)). right.
    vm_compute. discriminate.
Defined.

(** ** release *)

Lemma bit_is_set_cons h ws b :
  0 <= b ->
  bit_is_set (h :: ws) b
  = match ws !! Z.to_nat (b / 32) with
    | Some w => Z.testbit w (b mod 32)
    | None => false
    end.
Proof.
  intros Hb. unfold bit_is_set.
  now rewrite word_index_eq, word_index_succ, land_low5 by lia.
Qed.

(** X11.  [release] of a bit that is 0, in a word of the buffer, returns -1
    and leaves the whole buffer, header included, as it was. *)
Theorem release_of_free_bit buf bit hdr :
  wf_buffer buf -> is_u32 bit -> hdr = tag_of buf ->
  bit / 32 + 1 < Z.of_nat (length buf) -> bit_is_set buf bit = false ->
  release buf bit hdr = Done (-1) buf.
Proof.
  intros Hwf [Hbit _] -> Hin Hclr.
  destruct (wf_buffer_cons buf Hwf) as (h & ws & -> & Hh & Hws).
  rewrite bit_is_set_cons in Hclr by assumption. simpl length in Hin.
  destruct (lookup_lt_is_Some_2 ws (Z.to_nat (bit / 32))) as [w Hl].
  { assert (0 <= bit / 32) by (apply Z.div_pos; lia). lia. }
  rewrite Hl in Hclr. rewrite release_unfold by assumption.
  unfold tag_of, header. simpl. rewrite Z.eqb_refl. cbn [negb].
  now rewrite Hl, Hclr.
Qed.

Lemma release_of_free_bit_witness :
  release [2; 5] 1 0 = Done (-1) [2; 5].
Proof.
  apply release_of_free_bit.
  - split; [discriminate|]. repeat constructor; unfold u32_max; lia.
  - unfold is_u32, u32_max. lia.
  - reflexivity.
  - vm_compute. reflexivity.
  - reflexivity.
Defined.

(** Clearing bit [b] leaves every other bit as it was. *)
Lemma release_frame h h' ws b w c :
  0 <= b -> 0 <= c -> c <> b -> is_u32 w ->
  ws !! Z.to_nat (b / 32) = Some w ->
  bit_is_set (h' :: <[Z.to_nat (b / 32) := Z.land w (not32 (2 ^ (b mod 32)))]> ws) c
  = bit_is_set (h :: ws) c.
Proof.
  intros Hb Hc Hne Hw Hl. rewrite !bit_is_set_cons by assumption.
  destruct (Nat.eq_dec (Z.to_nat (b / 32)) (Z.to_nat (c / 32))) as [E|E].
  - rewrite <- E, Hl.
    rewrite list_lookup_insert_eq by (eapply lookup_lt_Some; eauto).
    pose proof (mod32_range b). pose proof (mod32_range c).
    rewrite testbit_land_not32 by (trivial; lia).
    assert (Hd : b / 32 = c / 32).
    { apply Z2Nat.inj; trivial; apply Z.div_pos; lia. }
    destruct (Z.eqb_spec (b mod 32) (c mod 32)) as [Hm|_];
      [|apply andb_true_r].
    exfalso. apply (mod32_differs b c); auto.
  - now rewrite list_lookup_insert_ne.
Qed.

(** X12.  With a matching tag and a used-count of at least 1, [release] of a
    bit that is 1 returns the used-count minus one, clears that bit and no
    other, stores the decremented count, and keeps the tag bits and the
    length of the buffer. *)
Theorem release_clears_one_bit buf b hdr :
  wf_buffer buf -> is_u32 b -> hdr = tag_of buf ->
  bit_is_set buf b = true -> 1 <= used_count buf ->
  exists buf',
    release buf b hdr = Done (used_count buf - 1) buf' /\
    bit_is_set buf' b = false /\
    (forall c, is_u32 c -> c <> b -> bit_is_set buf' c = bit_is_set buf c) /\
    used_count buf' = used_count buf - 1 /\
    tag_of buf' = tag_of buf /\ length buf' = length buf.
Proof.
  intros Hwf [Hb _] -> Hset Hpos.
  destruct (wf_buffer_cons buf Hwf) as (h & ws & -> & Hh & Hws).
  rewrite bit_is_set_cons in Hset by assumption.
  destruct (ws !! Z.to_nat (b / 32)) as [w|] eqn:Hl; [|discriminate].
  assert (Hw : is_u32 w) by (eapply Forall_lookup_1; eauto).
  pose proof (used_count_cons h ws) as Hcount.
  destruct (released_state h ws b w)
    as (Hwrap & _ & Hused & _ & Htag & Hl' & Hclr); trivial; [lia|].
  eexists. split; [|split; [|split; [|split; [|split]]]].
  - rewrite release_unfold by assumption.
    unfold tag_of, header. simpl. rewrite Z.eqb_refl. cbn [negb].
    rewrite Hl, Hset, Hwrap, <- Hcount. reflexivity.
  - rewrite bit_is_set_cons, Hl' by assumption. exact Hclr.
  - intros c [Hc _] Hne. apply release_frame; trivial.
  - exact Hused.
  - exact Htag.
  - simpl. now rewrite length_insert.
Qed.

Lemma release_clears_one_bit_witness :
  exists buf',
    release [2; 6] 1 0 = Done (used_count [2; 6] - 1) buf' /\
    bit_is_set buf' 1 = false /\
    (forall c, is_u32 c -> c <> 1 -> bit_is_set buf' c = bit_is_set [2; 6] c) /\
    used_count buf' = used_count [2; 6] - 1 /\
    tag_of buf' = tag_of [2; 6] /\ length buf' = length [2; 6].
Proof.
  apply release_clears_one_bit.
  - split; [discriminate|]. repeat constructor; unfold u32_max; lia.
  - unfold is_u32, u32_max. lia.
  - reflexivity.
  - reflexivity.
  - vm_compute. discriminate.
Defined.

Lemma lor_land_not32 w k :
  is_u32 w -> 0 <= k < 32 -> Z.testbit w k = true ->
  Z.lor (Z.land w (not32 (2 ^ k))) (2 ^ k) = w.
Proof.
  intros Hw Hk Hb. apply Z.bits_inj'. intros i Hi.
  rewrite Z.lor_spec, testbit_land_not32, testbit_pow2 by (trivial; lia).
  destruct (Z.eqb_spec k i) as [->|].
  - rewrite Hb. reflexivity.
  - simpl. now rewrite orb_false_r, andb_true_r.
Qed.

(** X13.  Release, then acquire with the released bit as hint: with a valid
    capacity above the bit, [acquire_bounded] returns that bit with the
    used-count the buffer had before the release, and the buffer is again
    exactly what it was. *)
Theorem release_acquire_round_trip fuel buf capacity b hdr :
  wf_buffer buf -> capacity <= max_bit_count -> 0 <= b < capacity ->
  Z.land hdr (not32 state_header_mask) = 0 -> hdr = tag_of buf ->
  bit_is_set buf b = true -> 1 <= used_count buf <= capacity ->
  exists buf1,
    release buf b hdr = Done (used_count buf - 1) buf1 /\
    acquire_bounded (S fuel) buf1 capacity b hdr = Done (b, used_count buf) buf.
Proof.
  intros Hwf Hmax Hb Hfit Htag Hset Hu.
  destruct (wf_buffer_cons buf Hwf) as (h & ws & -> & Hh & Hws).
  rewrite bit_is_set_cons in Hset by lia.
  destruct (ws !! Z.to_nat (b / 32)) as [w|] eqn:Hl; [|discriminate].
  assert (Hw : is_u32 w) by (eapply Forall_lookup_1; eauto).
  pose proof (used_count_cons h ws) as Hcount. rewrite Hcount in *.
  unfold tag_of, header in Htag. simpl in Htag.
  change max_bit_count with (2 ^ 25) in Hmax.
  pose proof (mod32_range b) as Hk.
  destruct (header_pred h Hh ltac:(lia)) as (Hwrap & Hm & Hd).
  destruct (released_state h ws b w)
    as (_ & Hwf1 & _ & _ & _ & Hl' & Hclr); trivial; try lia.
  destruct (wf_buffer_cons _ Hwf1) as (h1 & ws1 & E & Hh1 & Hws1).
  injection E as <- <-.
  eexists. split.
  - rewrite release_unfold by (trivial; lia).
    rewrite Htag, Z.eqb_refl. cbn [negb]. rewrite Hl, Hset, Hwrap. reflexivity.
  - rewrite acquire_bounded_unfold by assumption.
    replace (max_bit_count <? capacity) with false
      by (symmetry; apply Z.ltb_ge; exact Hmax).
    replace (capacity <=? b) with false by (symmetry; apply Z.leb_gt; lia).
    rewrite Hfit. cbn [Z.eqb negb orb].
    rewrite (reserved_free_hint _ fuel (h - 1) _ capacity b hdr
               (Z.land w (not32 (2 ^ (b mod 32))))); trivial; try lia.
    + rewrite Hm, list_insert_insert_eq, lor_land_not32 by (trivial; lia).
      rewrite list_insert_id by assumption.
      replace (h - 1 + 1) with h by lia.
      replace (h mod 2 ^ 26 - 1 + 1) with (h mod 2 ^ 26) by lia.
      reflexivity.
    + rewrite Htag. now apply tag_div.
Qed.

Lemma release_acquire_round_trip_witness :
  exists buf1,
    release [8; 255] 3 0 = Done (used_count [8; 255] - 1) buf1 /\
    acquire_bounded 1 buf1 8 3 0 = Done (3, used_count [8; 255]) [8; 255].
Proof.
  apply release_acquire_round_trip.
  - split; [discriminate|]. repeat constructor; unfold u32_max; lia.
  - vm_compute. discriminate.
  - lia.
  - reflexivity.
  - reflexivity.
  - reflexivity.
  - vm_compute. split; discriminate.
Defined.

(** ** set *)

(** X14.  What [set] does with a matching tag, on a bit whose word is in the
    buffer.  If the bit is 0, it is set, every other bit and the header stay
    as they were, and the result is -1.  If the bit is already 1 and the
    used-count is at least 1, the bitmap is left alone, the used-count is
    decremented and returned. *)
Theorem set_behaviour buf bit hdr :
  wf_buffer buf -> is_u32 bit -> hdr = tag_of buf ->
  bit / 32 + 1 < Z.of_nat (length buf) ->
  (bit_is_set buf bit = false ->
   exists buf',
     set buf bit hdr = Done (-1) buf' /\
     bit_is_set buf' bit = true /\ header buf' = header buf /\
     (forall c, is_u32 c -> c <> bit -> bit_is_set buf' c = bit_is_set buf c)) /\
  (bit_is_set buf bit = true -> 1 <= used_count buf ->
   exists buf',
     set buf bit hdr = Done (used_count buf - 1) buf' /\
     used_count buf' = used_count buf - 1 /\ tail buf' = tail buf).
Proof.
  intros Hwf [Hbit _] -> Hin.
  destruct (wf_buffer_cons buf Hwf) as (h & ws & -> & Hh & Hws).
  rewrite bit_is_set_cons by assumption. simpl length in Hin.
  destruct (lookup_lt_is_Some_2 ws (Z.to_nat (bit / 32))) as [w Hl].
  { assert (0 <= bit / 32) by (apply Z.div_pos; lia). lia. }
  rewrite Hl. rewrite set_unfold by assumption.
  change (tag_of (h :: ws)) with (Z.land h state_header_mask).
  rewrite Z.eqb_refl. cbn [negb].
  rewrite Hl. pose proof (mod32_range bit) as Hk. split.
  - intros Hclr. rewrite Hclr. eexists. split; [reflexivity|].
    split; [|split; [reflexivity|]].
    + rewrite bit_is_set_cons by assumption.
      rewrite list_lookup_insert_eq by (eapply lookup_lt_Some; eauto).
      rewrite Z.lor_spec, testbit_pow2, Z.eqb_refl by lia. apply orb_true_r.
    + intros c [Hc _] Hne. apply claim_frame; trivial.
  - intros Hset Hpos. rewrite Hset. rewrite used_count_cons in *.
    destruct (header_pred h Hh Hpos) as (Hwrap & Hm & _).
    eexists. split; [reflexivity|]. rewrite Hwrap, used_count_cons.
    split; [exact Hm | reflexivity].
Qed.

Lemma set_behaviour_witness :
  (exists buf',
     set [2; 5] 1 0 = Done (-1) buf' /\
     bit_is_set buf' 1 = true /\ header buf' = header [2; 5] /\
     (forall c, is_u32 c -> c <> 1 -> bit_is_set buf' c = bit_is_set [2; 5] c)) /\
  (exists buf',
     set [2; 5] 2 0 = Done (used_count [2; 5] - 1) buf' /\
     used_count buf' = used_count [2; 5] - 1 /\ tail buf' = tail [2; 5]).
Proof.
  assert (Hwf : wf_buffer [2; 5]).
  { split; [discriminate|]. repeat constructor; unfold u32_max; lia. }
  assert (H1 : is_u32 1) by (unfold is_u32, u32_max; lia).
  assert (H2 : is_u32 2) by (unfold is_u32, u32_max; lia).
  split.
  - apply (proj1 (set_behaviour [2; 5] 1 0 Hwf H1 eq_refl
                    ltac:(vm_compute; reflexivity))). reflexivity.
  - apply (proj2 (set_behaviour [2; 5] 2 0 Hwf H2 eq_refl
                    ltac:(vm_compute; reflexivity))); [reflexivity|].
    vm_compute. discriminate.
Defined.

(** X15.  Neither [release] nor [set] compares the bit with a capacity: once
    the tag matches, a bit whose word index is at or beyond the length of
    the buffer makes them address a cell outside the buffer. *)
Theorem release_set_unchecked_bit buf bit hdr :
  wf_buffer buf -> is_u32 bit -> hdr = tag_of buf ->
  Z.of_nat (length buf) <= bit / 32 + 1 ->
  release buf bit hdr = OutOfBounds /\ set buf bit hdr = OutOfBounds.
Proof.
  intros Hwf [Hbit _] -> Hout.
  destruct (wf_buffer_cons buf Hwf) as (h & ws & -> & Hh & Hws).
  simpl length in Hout.
  assert (Hl : ws !! Z.to_nat (bit / 32) = None).
  { apply lookup_ge_None_2.
    assert (0 <= bit / 32) by (apply Z.div_pos; lia). lia. }
  rewrite release_unfold, set_unfold by assumption.
  unfold tag_of, header. simpl. rewrite Z.eqb_refl. cbn [negb].
  now rewrite Hl.
Qed.

Lemma release_set_unchecked_bit_witness :
  release [1; 1] 32 0 = OutOfBounds /\ set [1; 1] 32 0 = OutOfBounds.
Proof.
  apply release_set_unchecked_bit.
  - split; [discriminate|]. repeat constructor; unfold u32_max; lia.
  - unfold is_u32, u32_max. lia.
  - reflexivity.
  - vm_compute. discriminate.
Defined.

(** ** Acquire returns *)

(** X16.  [acquire_bounded_lg2] always returns with a claimed bit when the
    hint is below the capacity, the tag matches and the used-count is below
    the capacity and equal to the popcount of the bitmap:
    [2 ^ bit_bound_lg2 / 32 + 2] iterations of its loop are enough, and the
    bit is below the capacity. *)
Theorem acquire_bounded_lg2_returns fuel buf lg2 hint hdr :
  wf_buffer buf -> 0 <= lg2 <= max_bit_count_lg2 ->
  buffer_bound_lg2 lg2 <= Z.of_nat (length buf) ->
  Z.land hdr (not32 state_header_mask) = 0 -> hdr = tag_of buf ->
  used_count buf = bitmap_popcount buf -> used_count buf < 2 ^ lg2 ->
  0 <= hint < 2 ^ lg2 ->
  (Z.to_nat (2 ^ lg2 / 32) + 2 <= fuel)%nat ->
  exists b buf',
    acquire_bounded_lg2 fuel buf lg2 hint hdr
    = Done (b, used_count buf + 1) buf' /\
    0 <= b < 2 ^ lg2 /\
    bit_is_set buf b = false /\ bit_is_set buf' b = true.
Proof.
  intros Hwf Hl Hlen Hfit Htag Hq Hu Hhint Hfuel.
  unfold max_bit_count_lg2 in Hl.
  rewrite acquire_lg2_as_bounded by (trivial; lia).
  apply acquire_bounded_returns; trivial.
  - apply aligned_pow2. lia.
  - change max_bit_count with (2 ^ 25). apply Z.pow_le_mono_r; lia.
  - rewrite <- buffer_bound_lg2_pow2 by lia. exact Hlen.
Qed.

Lemma acquire_bounded_lg2_returns_witness :
  exists b buf',
    acquire_bounded_lg2 4 [40; 4294967295; 255] 6 0 0
    = Done (b, used_count [40; 4294967295; 255] + 1) buf' /\
    0 <= b < 2 ^ 6 /\
    bit_is_set [40; 4294967295; 255] b = false /\ bit_is_set buf' b = true.
Proof.
  apply acquire_bounded_lg2_returns.
  - split; [discriminate|]. repeat constructor; unfold u32_max; lia.
  - unfold max_bit_count_lg2. lia.
  - vm_compute. discriminate.
  - reflexivity.
  - reflexivity.
  - reflexivity.
  - vm_compute. reflexivity.
  - lia.
  - vm_compute. lia.
Defined.

(** X17.  [acquire_bounded] returns with a claimed bit below the capacity on
    every capacity that is at most 32 or a multiple of 32, under the same
    conditions: valid arguments, matching tag, used-count below the capacity
    and equal to the popcount of the bitmap; [capacity / 32 + 2] iterations
    are enough. *)
Theorem acquire_bounded_returns_aligned fuel buf capacity hint hdr :
  wf_buffer buf -> aligned capacity -> capacity <= max_bit_count ->
  buffer_bound capacity <= Z.of_nat (length buf) ->
  Z.land hdr (not32 state_header_mask) = 0 -> hdr = tag_of buf ->
  used_count buf = bitmap_popcount buf -> used_count buf < capacity ->
  0 <= hint < capacity ->
  (Z.to_nat (capacity / 32) + 2 <= fuel)%nat ->
  exists b buf',
    acquire_bounded fuel buf capacity hint hdr
    = Done (b, used_count buf + 1) buf' /\
    0 <= b < capacity /\
    bit_is_set buf b = false /\ bit_is_set buf' b = true.
Proof. intros. now apply acquire_bounded_returns. Qed.

Lemma acquire_bounded_returns_aligned_witness :
  exists b buf',
    acquire_bounded 5 [95; 4294967295; 4294967295; 2147483647] 96 3 0
    = Done (b, used_count [95; 4294967295; 4294967295; 2147483647] + 1) buf' /\
    0 <= b < 96 /\
    bit_is_set [95; 4294967295; 4294967295; 2147483647] b = false /\
    bit_is_set buf' b = true.
Proof.
  apply acquire_bounded_returns_aligned.
  - split; [discriminate|]. repeat constructor; unfold u32_max; lia.
  - left. reflexivity.
  - vm_compute. discriminate.
  - vm_compute. discriminate.
  - reflexivity.
  - reflexivity.
  - reflexivity.
  - vm_compute. reflexivity.
  - lia.
  - vm_compute. lia.
Defined.

(** ** Sequences of acquires *)

(** X18.  Exhaustion on the capacities the loop handles: for a capacity C
    that is at most 32 or a multiple of 32 and any C hints below C, C
    calls of [acquire_bounded] on the zero-initialised buffer return C
    pairwise distinct bits of [0, C) with the counts 1..C, and every
    further call returns (-1, -1) and leaves the buffer as it is. *)
Theorem exhaustion_on_aligned_capacity capacity fuel hints :
  aligned capacity -> 0 < capacity <= max_bit_count ->
  (Z.to_nat (capacity / 32) + 2 <= fuel)%nat ->
  Z.of_nat (length hints) = capacity ->
  Forall (fun hint => 0 <= hint < capacity) hints ->
  exists rs final,
    acquire_seq fuel capacity hints (fresh capacity) = Some (rs, final) /\
    map snd rs = map (fun i => Z.of_nat i + 1) (seq 0 (length hints)) /\
    Forall (fun b => 0 <= b < capacity) (map fst rs) /\
    NoDup (map fst rs) /\
    used_count final = capacity /\
    forall fuel' hint,
      0 <= hint < capacity ->
      acquire_bounded fuel' final capacity hint 0 = Done (-1, -1) final.
Proof. apply exhaustion_aligned. Qed.

Lemma exhaustion_on_aligned_capacity_witness :
  exists rs final,
    acquire_seq 3 8 [5; 5; 0; 7; 7; 7; 2; 1] (fresh 8) = Some (rs, final) /\
    map snd rs = map (fun i => Z.of_nat i + 1) (seq 0 8) /\
    Forall (fun b => 0 <= b < 8) (map fst rs) /\
    NoDup (map fst rs) /\
    used_count final = 8 /\
    forall fuel' hint,
      0 <= hint < 8 ->
      acquire_bounded fuel' final 8 hint 0 = Done (-1, -1) final.
Proof.
  apply (exhaustion_on_aligned_capacity 8 3 [5; 5; 0; 7; 7; 7; 2; 1]).
  - right. lia.
  - vm_compute. split; [reflexivity | discriminate].
  - vm_compute. lia.
  - reflexivity.
  - repeat constructor; lia.
Defined.

(** One call of [acquire_bounded], whatever it returns: the buffer stays
    well formed, no bit is cleared, and a returned bit was 0 and is now 1. *)
Lemma acquire_bounded_monotone fuel buf capacity hint hdr r buf' :
  wf_buffer buf -> is_u32 hint ->
  acquire_bounded fuel buf capacity hint hdr = Done r buf' ->
  wf_buffer buf' /\
  (forall c, 0 <= c -> bit_is_set buf c = true -> bit_is_set buf' c = true) /\
  (0 <= fst r -> bit_is_set buf (fst r) = false /\ bit_is_set buf' (fst r) = true).
Proof.
  intros Hwf Hhint Hrun.
  destruct (wf_buffer_cons buf Hwf) as (h & ws & -> & Hh & Hws).
  apply acquire_bounded_shape in Hrun; trivial.
  destruct Hrun as [[-> ->]|[[-> ->]|[[-> ->]|Hok]]];
    try (split; [assumption|]; split; [auto | simpl; lia]).
  destruct Hok as (b & w & Hb & Hbb & _ & _ & Hu & Hl & Hfree & -> & ->).
  destruct (claimed_state h ws b w)
    as (Hwf' & _ & _ & _ & Hclr & Hset); trivial; try lia.
  split; [exact Hwf'|]. split; [|auto].
  intros c Hc. apply claim_keeps_bits; trivial; lia.
Qed.

Lemma acquire_calls_claims fuel : forall calls buf rs final,
  wf_buffer buf -> Forall (fun c => is_u32 (snd (fst c))) calls ->
  acquire_calls fuel calls buf = Some (rs, final) ->
  NoDup (List.filter (fun b => 0 <=? b) (map fst rs)) /\
  (forall c, 0 <= c -> bit_is_set buf c = true -> bit_is_set final c = true) /\
  (forall b, In b (map fst rs) -> 0 <= b ->
     bit_is_set buf b = false /\ bit_is_set final b = true).
Proof.
  induction calls as [|[[capacity hint] hdr] calls IH];
    intros buf rs final Hwf Hcalls Hseq.
  - injection Hseq as <- <-. simpl. split; [constructor|]. split; [auto|].
    intros b [].
  - inversion Hcalls as [|? ? Hhint Hrest]; subst. simpl in Hhint.
    cbn [acquire_calls] in Hseq.
    destruct (acquire_bounded fuel buf capacity hint hdr) as [r buf1| |] eqn:Hrun;
      try discriminate.
    destruct (acquire_calls fuel calls buf1) as [[rs' final']|] eqn:Hseq';
      [|discriminate].
    injection Hseq as <- <-.
    destruct (acquire_bounded_monotone _ _ _ _ _ _ _ Hwf Hhint Hrun)
      as (Hwf1 & Hmono & Hnew).
    destruct (IH buf1 rs' final' Hwf1 Hrest Hseq') as (Hnodup & Hmono' & Hbits).
    split; [|split].
    + cbn [map fst List.filter].
      destruct (Z.leb_spec 0 (fst r)) as [Hpos|_]; [|exact Hnodup].
      constructor; [|exact Hnodup].
      intros Hin. apply list_elem_of_In, filter_In in Hin as [Hin Hge].
      apply Z.leb_le in Hge.
      destruct (Hbits _ Hin Hge) as [Hclr _].
      destruct (Hnew Hpos) as [_ Hset]. congruence.
    + intros c Hc Hbc. apply Hmono'; [assumption|]. now apply Hmono.
    + intros b [<-|Hin] Hb.
      * destruct (Hnew Hb) as [Hclr Hset]. split; [exact Hclr|].
        now apply Hmono'.
      * destruct (Hbits b Hin Hb) as [Hclr Hset]. split; [|exact Hset].
        destruct (bit_is_set buf b) eqn:Hbb; [|reflexivity].
        rewrite (Hmono b Hb Hbb) in Hclr. discriminate.
Qed.

(** X19.  However many calls of [acquire_bounded] follow one another with no
    release in between, on any buffer, each call with its own capacity,
    hint and state header, the bits returned by the calls that succeed are
    pairwise distinct, each was 0 in the buffer the sequence started from,
    and each is 1 in the buffer it ends with. *)
Theorem acquire_calls_distinct fuel calls buf rs final :
  wf_buffer buf -> Forall (fun c => is_u32 (snd (fst c))) calls ->
  acquire_calls fuel calls buf = Some (rs, final) ->
  NoDup (List.filter (fun b => 0 <=? b) (map fst rs)) /\
  (forall b, In b (map fst rs) -> 0 <= b ->
     bit_is_set buf b = false /\ bit_is_set final b = true).
Proof.
  intros Hwf Hcalls Hseq.
  destruct (acquire_calls_claims fuel calls buf rs final Hwf Hcalls Hseq)
    as (Hnodup & _ & Hbits).
  split; assumption.
Qed.

(** A buffer with tag 5: two claims with the matching header, a call with
    the wrong tag and a call with a hint out of range in between. *)
Lemma acquire_calls_distinct_witness :
  acquire_calls 3
    [(8, 3, 335544320); (8, 3, 201326592); (8, 9, 335544320); (8, 3, 335544320)]
    [335544320; 0]
  = Some ([(3, 1); (-2, -2); (-3, -3); (0, 2)], [335544322; 9]) /\
  NoDup [3; 0].
Proof.
  assert (Hwf : wf_buffer [335544320; 0]).
  { split; [discriminate|]. repeat constructor; unfold u32_max; lia. }
  assert (Hcalls : Forall (fun c : Z * Z * Z => is_u32 (snd (fst c)))
            [(8, 3, 335544320); (8, 3, 201326592); (8, 9, 335544320);
             (8, 3, 335544320)])
    by (repeat constructor; unfold u32_max; simpl; lia).
  assert (Hseq : acquire_calls 3
            [(8, 3, 335544320); (8, 3, 201326592); (8, 9, 335544320);
             (8, 3, 335544320)] [335544320; 0]
          = Some ([(3, 1); (-2, -2); (-3, -3); (0, 2)], [335544322; 9]))
    by (vm_compute; reflexivity).
  split; [exact Hseq|].
  exact (proj1 (acquire_calls_distinct 3 _ [335544320; 0] _ _ Hwf Hcalls Hseq)).
Defined.

(** ** Edge cases of the header and of the hint *)

Lemma testbit_tag_low h :
  Z.testbit (Z.land h state_header_mask) 26 = Z.odd (h / 2 ^ 26).
Proof.
  rewrite Z.land_spec, testbit_header_mask by lia. simpl.
  rewrite andb_true_r, <- Z.bit0_odd, Z.div_pow2_bits by lia. reflexivity.
Qed.

(** X20.  [release] does not look at the used-count before decrementing it.
    On a bit that is 1 while the used-count is 0, it clears the bit and
    returns -1, the value it also returns for a bit that was already 0; the
    decrement borrows from the tag field, so that the used-count reads
    [2 ^ 26 - 1] and the tag bits of the header are no longer the same. *)
Theorem release_underflow buf b hdr :
  wf_buffer buf -> is_u32 b -> hdr = tag_of buf ->
  bit_is_set buf b = true -> used_count buf = 0 ->
  exists buf',
    release buf b hdr = Done (-1) buf' /\
    bit_is_set buf' b = false /\
    used_count buf' = 2 ^ 26 - 1 /\ tag_of buf' <> tag_of buf.
Proof.
  intros Hwf [Hb _] -> Hset Hzero.
  destruct (wf_buffer_cons buf Hwf) as (h & ws & -> & Hh & Hws).
  rewrite bit_is_set_cons in Hset by assumption.
  destruct (ws !! Z.to_nat (b / 32)) as [w|] eqn:Hl; [|discriminate].
  assert (Hw : is_u32 w) by (eapply Forall_lookup_1; eauto).
  rewrite used_count_cons in Hzero. pose proof (mod32_range b) as Hk.
  assert (Hlen : (Z.to_nat (b / 32) < length ws)%nat)
    by (eapply lookup_lt_Some; eauto).
  assert (Hdiv : wrap32 (h - 1) mod 2 ^ 26 = 2 ^ 26 - 1 /\
                 Z.odd (wrap32 (h - 1) / 2 ^ 26) = negb (Z.odd (h / 2 ^ 26))).
  { unfold is_u32, u32_max in Hh. unfold wrap32.
    destruct (Z.eq_dec h 0) as [->|Hne]; [split; reflexivity|].
    rewrite (Z.mod_small (h - 1) (2 ^ 32)) by lia.
    assert (Hq : (h - 1) / 2 ^ 26 = h / 2 ^ 26 - 1 /\
                 (h - 1) mod 2 ^ 26 = 2 ^ 26 - 1).
    { change (2 ^ 26) with 67108864 in *. Z.div_mod_to_equations. lia. }
    destruct Hq as [-> ->]. split; [reflexivity|].
    rewrite Z.odd_sub. simpl (Z.odd 1). now destruct (Z.odd (h / 2 ^ 26)). }
  destruct Hdiv as [Hmod Hodd].
  eexists. split; [|split; [|split]].
  - rewrite release_unfold by assumption.
    change (tag_of (h :: ws)) with (Z.land h state_header_mask).
    rewrite Z.eqb_refl. cbn [negb]. rewrite Hl, Hset, Hzero. reflexivity.
  - rewrite bit_is_set_cons, list_lookup_insert_eq by assumption.
    rewrite testbit_land_not32, Z.eqb_refl by (trivial; lia).
    apply andb_false_r.
  - rewrite used_count_cons. exact Hmod.
  - unfold tag_of, header. simpl. intros Heq.
    apply (f_equal (fun z => Z.testbit z 26)) in Heq.
    rewrite !testbit_tag_low, Hodd in Heq.
    now destruct (Z.odd (h / 2 ^ 26)).
Qed.

Lemma release_underflow_witness :
  exists buf',
    release [0; 8] 3 0 = Done (-1) buf' /\
    bit_is_set buf' 3 = false /\
    used_count buf' = 2 ^ 26 - 1 /\ tag_of buf' <> tag_of [0; 8].
Proof.
  apply release_underflow.
  - split; [discriminate|]. repeat constructor; unfold u32_max; lia.
  - unfold is_u32, u32_max. lia.
  - reflexivity.
  - reflexivity.
  - reflexivity.
Defined.

(** X21.  For a capacity below one word, the hint [2 ^ bit_bound_lg2] is not
    only accepted by [acquire_bounded_lg2]: when that bit is 0, with a
    matching tag and room left, it is the bit claimed and returned, although
    it is not below the capacity. *)
Theorem acquire_bounded_lg2_claims_bound fuel buf lg2 hdr :
  wf_buffer buf -> 0 <= lg2 < 5 -> (2 <= length buf)%nat ->
  Z.land hdr (not32 state_header_mask) = 0 -> hdr = tag_of buf ->
  used_count buf < 2 ^ lg2 -> bit_is_set buf (2 ^ lg2) = false ->
  exists buf',
    acquire_bounded_lg2 (S fuel) buf lg2 (2 ^ lg2) hdr
    = Done (2 ^ lg2, used_count buf + 1) buf' /\
    bit_is_set buf' (2 ^ lg2) = true.
Proof.
  intros Hwf Hl Hlen Hfit Htag Hu Hclr.
  destruct (wf_buffer_cons buf Hwf) as (h & ws & -> & Hh & Hws).
  rewrite used_count_cons in *. unfold tag_of, header in Htag. simpl in Htag.
  assert (Hp : 0 < 2 ^ lg2 <= 2 ^ 4)
    by (split; [apply Z.pow_pos_nonneg; lia | apply Z.pow_le_mono_r; lia]).
  rewrite bit_is_set_cons in Hclr by lia.
  assert (Hd : 2 ^ lg2 / 32 = 0) by (apply Z.div_small; lia).
  destruct ws as [|w ws]; [simpl in Hlen; lia|].
  rewrite Hd in Hclr. simpl in Hclr.
  rewrite acquire_bounded_lg2_unfold by (trivial; lia).
  rewrite Hfit, Z.ltb_irrefl. cbn [Z.eqb negb orb].
  rewrite (reserved_free_hint _ fuel h (w :: ws) (2 ^ lg2) (2 ^ lg2) hdr w);
    trivial; try lia; [|now rewrite Hd].
  eexists. split; [reflexivity|].
  inversion Hws; subst.
  destruct (claimed_state h (w :: ws) (2 ^ lg2) w) as (_ & _ & _ & _ & _ & Hset);
    trivial; try lia.
  now rewrite Hd.
Qed.

Lemma acquire_bounded_lg2_claims_bound_witness :
  exists buf',
    acquire_bounded_lg2 1 [0; 0] 3 (2 ^ 3) 0
    = Done (2 ^ 3, used_count [0; 0] + 1) buf' /\
    bit_is_set buf' (2 ^ 3) = true.
Proof.
  apply acquire_bounded_lg2_claims_bound.
  - split; [discriminate|]. repeat constructor; unfold u32_max; lia.
  - lia.
  - simpl. lia.
  - reflexivity.
  - reflexivity.
  - vm_compute. reflexivity.
  - reflexivity.
Defined.
